(** * lindb: the kv version set and the memory database write path

    A shallow embedding of [kv/version/version_set.go] (the
    [storeVersionSet] type with its manifest journal) and of the parts of
    the in-memory write path that the specification describes, together
    with the properties the specification states about them.

    Conventions.
    - Go's [int64] and [int] values are integers of [Z]; arithmetic that
      the source performs on [atomic.Int64] is wrapped by [wrap64].
    - Go maps are [gmap]s; a pointer stored in a map is modelled by the
      value it points to, the map being the only owner the version set
      looks it up through.
    - A method with receiver [vs *storeVersionSet] takes the version set
      and the file system and returns both, next to the Go return value.
    - The mutexes are not modelled: every method is one atomic step. *)

From stdpp Require Import gmap strings list fin_maps.
From Stdlib Require Import ZArith Lia Sorted.

#[local] Open Scope Z_scope.

(** ** Machine integers *)

Definition int64_min : Z := - 2 ^ 63.
Definition int64_max : Z := 2 ^ 63 - 1.

(** Two's complement wrap-around of Go's [int64] arithmetic. *)
Definition wrap64 (z : Z) : Z := (z + 2 ^ 63) `mod` 2 ^ 64 - 2 ^ 63.

Definition in_int64 (z : Z) : Prop := int64_min ≤ z ≤ int64_max.

(** ** Bytes, edit logs and their codec *)

Definition bytes := list Byte.byte.

(** Modelled from the spec: the file metadata of [kv/table], held by a
    version: file number, smallest and largest key, size. *)
Record FileMeta := mkFileMeta {
  fileNumber : Z;
  minKey : Z;
  maxKey : Z;
  fileSize : Z
}.

(** Modelled from the spec: the edits of [kv/version/edit_log.go], which
    is not part of the sources at hand.  An edit is one of
    [NewFile(level, meta)], [DeleteFile(level, num)] and
    [NextFileNumber(n)]. *)
Inductive Log :=
| LogNewFile (level : Z) (file : FileMeta)
| LogDeleteFile (level : Z) (num : Z)
| LogNextFileNumber (n : Z).

(** Modelled from the spec: an edit log is a family id (or the reserved
    [StoreFamilyID]) with an ordered list of edits. *)
Record EditLog := mkEditLog {
  familyID : Z;
  logs : list Log
}.

(** Modelled from the spec: the reserved family id of store level edit
    logs, [StoreFamilyID = -1]. *)
Definition StoreFamilyID : Z := -1.

(** Modelled from the spec: the constructors of [edit_log.go];
    [editLog.Add(log)] appends at the end, edits being kept in insertion
    order. *)
Definition NewEditLog (id : Z) : EditLog := mkEditLog id [].

Definition Add (el : EditLog) (l : Log) : EditLog :=
  mkEditLog (familyID el) (logs el ++ [l]).

Definition NewNextFileNumber (n : Z) : Log := LogNextFileNumber n.
Definition CreateNewFile (level : Z) (file : FileMeta) : Log := LogNewFile level file.

(** The binary form of an edit log, [marshal] and [unmarshal] of
    [edit_log.go], is a parameter of the development: the version set
    only needs that both may fail. *)
Class EditLogCodec := {
  marshal : EditLog → option bytes;
  unmarshal : bytes → option EditLog
}.

(** ** Versions and family versions *)

(** Modelled from the spec: a version is a reference counted vector of
    levels, each a sorted list of file metadata. *)
Record Version := mkVersion {
  numOfRef : Z;
  levels : list (list FileMeta)
}.

(** Modelled from the spec: a family version owns the chain of versions
    of one family, the head first. *)
Record FamilyVersion := mkFamilyVersion {
  fvID : Z;
  fvName : string;
  current : Version;
  previous : list Version
}.

(** Modelled from the spec: the order of the files of a level of
    [version.go]; files of level 0 are ordered by file number, those of
    the other levels by their smallest key. *)
Definition sortKey (level : Z) (f : FileMeta) : Z :=
  if level =? 0 then fileNumber f else minKey f.

Fixpoint insertSorted (key : FileMeta → Z) (f : FileMeta) (fs : list FileMeta)
  : list FileMeta :=
  match fs with
  | [] => [f]
  | g :: fs' =>
      if key f <=? key g then f :: g :: fs' else g :: insertSorted key f fs'
  end.

Definition removeFile (num : Z) (fs : list FileMeta) : list FileMeta :=
  filter (λ g, fileNumber g ≠ num) fs.

(** Modelled from the spec: an edit of one level of a version; a level
    outside of [0, N) is outside of the data model and leaves the version
    as it is. *)
Definition onLevel (level : Z) (f : list FileMeta → list FileMeta) (v : Version)
  : Version :=
  if decide (0 ≤ level)
  then mkVersion (numOfRef v) (alter f (Z.to_nat level) (levels v))
  else v.

(** Modelled from the spec: the effect of one edit on a version.
    [NewFile] inserts into the level preserving its order, [DeleteFile]
    removes the file with that number (a missing file is a no-op), and
    [NextFileNumber] is a store level edit that changes no level. *)
Definition applyLog (l : Log) (v : Version) : Version :=
  match l with
  | LogNewFile level file => onLevel level (insertSorted (sortKey level) file) v
  | LogDeleteFile level num => onLevel level (removeFile num) v
  | LogNextFileNumber _ => v
  end.

(** Modelled from the spec: [editLog.apply(version)] applies the edits
    in insertion order. *)
Definition apply (el : EditLog) (v : Version) : Version :=
  foldl (λ v l, applyLog l v) v (logs el).

(** Modelled from the spec: a clone shares no reference with the version
    it is made from and has the same levels. *)
Definition cloneVersion (v : Version) : Version := mkVersion 0 (levels v).

(** Modelled from the spec: the reference count of [version.go];
    [GetSnapshot] pins the head, [Close] releases it. *)
Definition retain (v : Version) : Version := mkVersion (numOfRef v + 1) (levels v).
Definition release (v : Version) : Version := mkVersion (numOfRef v - 1) (levels v).

(** Modelled from the spec: [appendVersion] installs a new head; the
    former head stays in the chain. *)
Definition appendVersion (fv : FamilyVersion) (v : Version) : FamilyVersion :=
  mkFamilyVersion (fvID fv) (fvName fv) v (current fv :: previous fv).

Definition setCurrentVersion (fv : FamilyVersion) (v : Version) : FamilyVersion :=
  mkFamilyVersion (fvID fv) (fvName fv) v (previous fv).

(** ** The file system *)

(** Modelled from the spec: a frame of a journal file of
    [pkg/bufioutil]: a record that reads back, or a frame whose length
    or checksum is wrong. *)
Inductive frame :=
| Frame (payload : bytes)
| Corrupt.

Inductive fcontent :=
| Text (s : string)
| Journal (frames : list frame).

(** The operations on files that succeeded, oldest first. *)
Inductive event :=
| EvCreate (path : string)
| EvAppend (path : string) (payload : bytes)
| EvSync (path : string)
| EvWriteFile (path : string) (data : string)
| EvRename (src dst : string).

(** The world outside of the process: the files, the history of the
    operations on them, and the outcomes of the operations to come
    ([true]: the operation succeeds); when [faults] is used up every
    operation succeeds. *)
Record World := mkWorld {
  files : gmap string fcontent;
  trace : list event;
  faults : list bool
}.

Definition attempt (w : World) : bool * World :=
  match faults w with
  | [] => (true, w)
  | b :: rest => (b, mkWorld (files w) (trace w) rest)
  end.

Definition perform (ev : event) (fs : gmap string fcontent) (w : World) : World :=
  mkWorld fs (trace w ++ [ev]) (faults w).

(** Go's [error] return value, and the panic of a call through a nil
    interface. *)
Inductive error :=
| ErrUnknownFamily (family : string)
| ErrUnknownFamilyID (id : Z)
| ErrEncode
| ErrWrite
| ErrSync
| ErrCreateWriter
| ErrCreateReader
| ErrReadCurrent
| ErrRecoverRead
| ErrUnmarshal
| ErrWriteTmp
| ErrRename.

Inductive outcome :=
| Nil
| Err (e : error)
| Panic.

(** ** bufioutil and the file utilities *)

(** Modelled from the spec: a writer of [pkg/bufioutil] is the journal
    file it appends frames to; the package is not part of the sources at
    hand.  A manifest is written under a new name and starts empty. *)
Abbreviation BufioWriter := string (only parsing).

Definition NewBufioWriter (path : string) (w : World) : option BufioWriter * World :=
  let '(ok, w) := attempt w in
  if ok then (Some path, perform (EvCreate path) (<[path := Journal []]> (files w)) w)
  else (None, w).

Definition journalOf (w : World) (path : string) : list frame :=
  match files w !! path with
  | Some (Journal fs) => fs
  | _ => []
  end.

(** Modelled from the spec: [writer.Write(v)] appends one frame. *)
Definition writerWrite (writer : BufioWriter) (v : bytes) (w : World) : bool * World :=
  let '(ok, w) := attempt w in
  if ok
  then (true, perform (EvAppend writer v)
                (<[writer := Journal (journalOf w writer ++ [Frame v])]> (files w)) w)
  else (false, w).

(** Modelled from the spec: [writer.Sync()]. *)
Definition writerSync (writer : BufioWriter) (w : World) : bool * World :=
  let '(ok, w) := attempt w in
  if ok then (true, perform (EvSync writer) (files w) w) else (false, w).

(** Modelled from the spec: [bufioutil.NewBufioReader(path)] with its
    [Next] and [Read], the frames of a journal file in order. *)
Definition NewBufioReader (path : string) (w : World) : option (list frame) :=
  match files w !! path with
  | Some (Journal fs) => Some fs
  | _ => None
  end.

(** Modelled from the spec: [fileutil.Exist(path)] of [pkg/fileutil]. *)
Definition Exist (path : string) (w : World) : bool :=
  bool_decide (is_Some (files w !! path)).

(** [ioutil.ReadFile(path)] of a text file. *)
Definition ReadFile (path : string) (w : World) : option string :=
  match files w !! path with
  | Some (Text s) => Some s
  | _ => None
  end.

(** [ioutil.WriteFile(path, data, 0666)]. *)
Definition WriteFile (path : string) (data : string) (w : World) : bool * World :=
  let '(ok, w) := attempt w in
  if ok then (true, perform (EvWriteFile path data) (<[path := Text data]> (files w)) w)
  else (false, w).

(** [os.Rename(src, dst)] replaces [dst] in one step. *)
Definition Rename (src dst : string) (w : World) : bool * World :=
  let '(ok, w) := attempt w in
  match ok, files w !! src with
  | true, Some c =>
      (true, perform (EvRename src dst) (<[dst := c]> (delete src (files w))) w)
  | _, _ => (false, w)
  end.

(** [filepath.Join(dir, name)] for a directory in clean form and a file
    name: an empty directory is left out. *)
Definition Join (dir name : string) : string :=
  if decide (dir = "") then name else dir +:+ "/" +:+ name.

(** Modelled from the spec: the names of [kv/version], which are
    declared outside of the sources at hand: the pointer file is
    [CURRENT], a manifest is [MANIFEST-NNNNNN] and an update of CURRENT
    in flight carries the [TMP] suffix. *)
Definition current_name : string := "CURRENT".
Definition TmpSuffix : string := "TMP".

Fixpoint digits (fuel : nat) (n : Z) : string :=
  match fuel with
  | O => ""
  | S fuel' =>
      (if n <? 10 then "" else digits fuel' (n `div` 10))
      +:+ String (Ascii.ascii_of_nat (48 + Z.to_nat (n `mod` 10))) ""
  end.

Definition pad (width : nat) (s : string) : string :=
  String.concat "" (replicate (width - String.length s) "0") +:+ s.

(** Modelled from the spec: [ManifestFileName] of [kv/version], the
    number in six digits after [MANIFEST-]. *)
Definition ManifestFileName (n : Z) : string :=
  "MANIFEST-" +:+
  (if n <? 0 then "-" +:+ pad 5 (digits 20 (- n)) else pad 6 (digits 20 n)).

(** ** The version set *)

Record storeVersionSet := mkVS {
  manifestFileNumber : Z;
  nextFileNumber : Z;
  storePath : string;
  familyVersions : gmap string FamilyVersion;
  familyIDs : gmap Z string;
  versionID : Z;
  numOfLevels : nat;
  manifest : option BufioWriter
}.

Definition NewStoreVersionSet (path : string) (n : nat) : storeVersionSet :=
  {| manifestFileNumber := 1;
     nextFileNumber := 2;
     storePath := path;
     familyVersions := ∅;
     familyIDs := ∅;
     versionID := 0;
     numOfLevels := n;
     manifest := None |}.

Definition setFamilyVersions (vs : storeVersionSet) (m : gmap string FamilyVersion)
  : storeVersionSet :=
  mkVS (manifestFileNumber vs) (nextFileNumber vs) (storePath vs) m (familyIDs vs)
       (versionID vs) (numOfLevels vs) (manifest vs).

Definition setManifest (vs : storeVersionSet) (writer : option BufioWriter)
  : storeVersionSet :=
  mkVS (manifestFileNumber vs) (nextFileNumber vs) (storePath vs) (familyVersions vs)
       (familyIDs vs) (versionID vs) (numOfLevels vs) writer.

Definition numberOfLevels (vs : storeVersionSet) : nat := numOfLevels vs.

(** [NextFileNumber]: [Add(1)] on the counter, then the new value less
    one is handed out. *)
Definition NextFileNumber (vs : storeVersionSet) : Z * storeVersionSet :=
  let nextNumber := wrap64 (nextFileNumber vs + 1) in
  (wrap64 (nextNumber - 1),
   mkVS (manifestFileNumber vs) nextNumber (storePath vs) (familyVersions vs)
        (familyIDs vs) (versionID vs) (numOfLevels vs) (manifest vs)).


Definition newVersionID (vs : storeVersionSet) : Z * storeVersionSet :=
  let newID := wrap64 (versionID vs + 1) in
  (wrap64 (newID - 1),
   mkVS (manifestFileNumber vs) (nextFileNumber vs) (storePath vs) (familyVersions vs)
        (familyIDs vs) newID (numOfLevels vs) (manifest vs)).

Definition setNextFileNumberWithoutLock (newNextFileNumber : Z) (vs : storeVersionSet)
  : storeVersionSet :=
  mkVS newNextFileNumber (wrap64 (newNextFileNumber + 1)) (storePath vs)
       (familyVersions vs) (familyIDs vs) (versionID vs) (numOfLevels vs) (manifest vs).

Definition GetFamilyVersion (vs : storeVersionSet) (family : string)
  : option FamilyVersion :=
  familyVersions vs !! family.

(** [getFamilyVersion(familyID)]: the name registered for the id, then
    the family version of that name. *)
Definition getFamilyVersion (vs : storeVersionSet) (id : Z) : option FamilyVersion :=
  match familyIDs vs !! id with
  | None => None
  | Some familyName => familyVersions vs !! familyName
  end.

(** Modelled from the spec: [newFamilyVersion] of [family_version.go]
    starts the chain with one version of [numberOfLevels()] empty
    levels. *)
Definition newFamilyVersion (id : Z) (family : string) (vs : storeVersionSet)
  : FamilyVersion :=
  mkFamilyVersion id family (mkVersion 0 (replicate (numberOfLevels vs) [])) [].

Definition CreateFamilyVersion (vs : storeVersionSet) (family : string) (id : Z)
  : FamilyVersion * storeVersionSet :=
  match GetFamilyVersion vs family with
  | Some familyVersion => (familyVersion, vs)
  | None =>
      let familyVersion := newFamilyVersion id family vs in
      (familyVersion,
       mkVS (manifestFileNumber vs) (nextFileNumber vs) (storePath vs)
            (<[family := familyVersion]> (familyVersions vs))
            (<[id := family]> (familyIDs vs))
            (versionID vs) (numOfLevels vs) (manifest vs))
  end.

Definition getCurrentPath (vs : storeVersionSet) : string :=
  Join (storePath vs) current_name.

Definition getManifestFilePath (vs : storeVersionSet) (manifestFileName : string)
  : string :=
  Join (storePath vs) manifestFileName.

(** [persistEditLogs(writer, editLogs)]: every edit log is marshalled,
    written and synced, in this order; the loop stops at the first
    failure.  A nil [writer] is a nil interface: the call of [Write]
    through it panics. *)
Fixpoint persistEditLogs `{EditLogCodec} (writer : option BufioWriter)
    (editLogs : list EditLog) (w : World) : outcome * World :=
  match editLogs with
  | [] => (Nil, w)
  | editLog :: rest =>
      match marshal editLog with
      | None => (Err ErrEncode, w)
      | Some v =>
          match writer with
          | None => (Panic, w)
          | Some journal =>
              let '(written, w) := writerWrite journal v w in
              if written then
                let '(synced, w) := writerSync journal w in
                if synced then persistEditLogs writer rest w
                else (Err ErrSync, w)
              else (Err ErrWrite, w)
          end
      end
  end.

(** The files of the levels as [NewFile] edits, level by level. *)
Definition levelEdits (lvls : list (list FileMeta)) : list Log :=
  mjoin (imap (λ numOfLevel files_,
                 (λ file, CreateNewFile (Z.of_nat numOfLevel) file) <$> files_) lvls).

(** [createFamilySnapshot(familyID, familyVersion)]: the snapshot pins
    the head while its levels are read and releases it at the end, which
    leaves the family version as it was. *)
Definition createFamilySnapshot (id : Z) (familyVersion : FamilyVersion) : EditLog :=
  foldl Add (NewEditLog id) (levelEdits (levels (current familyVersion))).

Definition createStoreSnapshot (vs : storeVersionSet) : EditLog :=
  Add (NewEditLog StoreFamilyID) (NewNextFileNumber (nextFileNumber vs)).

(** [createSnapshot]: one edit log for every entry of [familyIDs], then
    the store level edit log.  Go ranges over a map in an order of its
    choice; the order of [map_to_list] stands for it.  An id whose name
    has no family version yields a nil [FamilyVersion], and the call of
    [GetSnapshot] on it panics ([None]). *)
Fixpoint familySnapshots (vs : storeVersionSet) (entries : list (Z * string))
  : option (list EditLog) :=
  match entries with
  | [] => Some []
  | (id, name) :: rest =>
      match familyVersions vs !! name with
      | None => None
      | Some familyVersion =>
          (λ editLogs, createFamilySnapshot id familyVersion :: editLogs)
            <$> familySnapshots vs rest
      end
  end.

Definition createSnapshot (vs : storeVersionSet) : option (list EditLog) :=
  (λ editLogs, editLogs ++ [createStoreSnapshot vs])
    <$> familySnapshots vs (map_to_list (familyIDs vs)).

(** [setCurrent(manifestFile)]: the name is written to the temporary
    file, which is then renamed to CURRENT. *)
Definition tmpPath (vs : storeVersionSet) : string :=
  getCurrentPath vs +:+ "." +:+ TmpSuffix.

Definition setCurrent (vs : storeVersionSet) (manifestFile : string) (w : World)
  : outcome * World :=
  let current_ := getCurrentPath vs in
  let tmp := tmpPath vs in
  let '(written, w) := WriteFile tmp manifestFile w in
  if written then
    let '(renamed, w) := Rename tmp current_ w in
    if renamed then (Nil, w) else (Err ErrRename, w)
  else (Err ErrWriteTmp, w).

(** [initJournal]: when no manifest writer is set, the snapshot is
    persisted to a new manifest, CURRENT is set, and the writer is
    kept. *)
Definition initJournal `{EditLogCodec} (vs : storeVersionSet) (w : World)
  : outcome * storeVersionSet * World :=
  match manifest vs with
  | Some _ => (Nil, vs, w)
  | None =>
      let manifestFileName := ManifestFileName (manifestFileNumber vs) in
      let manifestPath := getManifestFilePath vs manifestFileName in
      match NewBufioWriter manifestPath w with
      | (None, w) => (Err ErrCreateWriter, vs, w)
      | (Some writer, w) =>
          match createSnapshot vs with
          | None => (Panic, vs, w)
          | Some editLogs =>
              match persistEditLogs (Some writer) editLogs w with
              | (Nil, w) =>
                  match setCurrent vs manifestFileName w with
                  | (Nil, w) => (Nil, setManifest vs (Some writer), w)
                  | (failure, w) => (failure, vs, w)
                  end
              | (failure, w) => (failure, vs, w)
              end
          end
      end
  end.

(** Modelled from the spec: [GetSnapshot] of [family_version.go] pins
    the head of the family version. *)
Definition GetSnapshot (fv : FamilyVersion) : FamilyVersion :=
  setCurrentVersion fv (retain (current fv)).

(** Modelled from the spec: [snapshot.Close()] when the pinned version
    still is the head, and when a new head was appended since. *)
Definition closeOnCurrent (fv : FamilyVersion) : FamilyVersion :=
  setCurrentVersion fv (release (current fv)).

Definition closeOnPrevious (fv : FamilyVersion) : FamilyVersion :=
  match previous fv with
  | [] => fv
  | pinned :: older =>
      mkFamilyVersion (fvID fv) (fvName fv) (current fv) (release pinned :: older)
  end.

(** [CommitFamilyEditLog(family, editLog)].  The edit log is the
    caller's object: the edit added to it is returned with the rest. *)
Definition CommitFamilyEditLog `{EditLogCodec} (vs : storeVersionSet) (w : World)
    (family : string) (editLog : EditLog)
  : outcome * storeVersionSet * World * EditLog :=
  match GetFamilyVersion vs family with
  | None => (Err (ErrUnknownFamily family), vs, w, editLog)
  | Some familyVersion =>
      let editLog := Add editLog (NewNextFileNumber (nextFileNumber vs)) in
      match persistEditLogs (manifest vs) [editLog] w with
      | (Nil, w) =>
          let snapshot := GetSnapshot familyVersion in
          let newVersion := cloneVersion (current snapshot) in
          let newVersion := apply editLog newVersion in
          let familyVersion := appendVersion snapshot newVersion in
          let familyVersion := closeOnPrevious familyVersion in
          (Nil,
           setFamilyVersions vs (<[family := familyVersion]> (familyVersions vs)),
           w, editLog)
      | (failure, w) => (failure, vs, w, editLog)
      end
  end.

(** Modelled from the spec: [editLog.applyVersionSet(vs)] of
    [edit_log.go]; a store level record carries the next file number,
    which is handed to [setNextFileNumberWithoutLock]. *)
Definition applyVersionSet (el : EditLog) (vs : storeVersionSet) : storeVersionSet :=
  foldl (λ vs l,
           match l with
           | LogNextFileNumber n => setNextFileNumberWithoutLock n vs
           | _ => vs
           end) vs (logs el).

(** [applyFamilyVersion(familyID, editLog)]: the family version is
    looked up as [getFamilyVersion] does, and the edit log is applied to
    its head in place; the family version is the object the map holds
    under the name, so the map sees the change. *)
Definition applyFamilyVersion (vs : storeVersionSet) (id : Z) (editLog : EditLog)
  : outcome * storeVersionSet :=
  match familyIDs vs !! id with
  | None => (Err (ErrUnknownFamilyID id), vs)
  | Some familyName =>
      match familyVersions vs !! familyName with
      | None => (Err (ErrUnknownFamilyID id), vs)
      | Some familyVersion =>
          let snapshot := GetSnapshot familyVersion in
          let familyVersion :=
            setCurrentVersion snapshot (apply editLog (current snapshot)) in
          let familyVersion := closeOnCurrent familyVersion in
          (Nil,
           setFamilyVersions vs (<[familyName := familyVersion]> (familyVersions vs)))
      end
  end.

(** The body of the loop of [recover] for one frame. *)
Definition recoverFrame `{EditLogCodec} (vs : storeVersionSet) (f : frame)
  : outcome * storeVersionSet :=
  match f with
  | Corrupt => (Err ErrRecoverRead, vs)
  | Frame record =>
      match unmarshal record with
      | None => (Err ErrUnmarshal, vs)
      | Some editLog =>
          if decide (familyID editLog = StoreFamilyID)
          then (Nil, applyVersionSet editLog vs)
          else applyFamilyVersion vs (familyID editLog) editLog
      end
  end.

(** [for reader.Next() { ... }] of [recover]. *)
Fixpoint recoverFrames `{EditLogCodec} (vs : storeVersionSet) (frames : list frame)
  : outcome * storeVersionSet :=
  match frames with
  | [] => (Nil, vs)
  | f :: rest =>
      match recoverFrame vs f with
      | (Nil, vs) => recoverFrames vs rest
      | failure => failure
      end
  end.

Definition readManifestFileName (vs : storeVersionSet) (w : World) : option string :=
  ReadFile (getCurrentPath vs) w.

(** [recover]: the manifest named by CURRENT is read frame by frame.
    The reader only reads: the world is left as it is.  The close of the
    reader is deferred before the error of [NewBufioReader] is looked
    at: when the manifest does not open, the reader is nil, the function
    returns the error of the reader and the deferred [reader.Close()]
    then runs on the nil reader, so that the call ends in a panic and
    not in the error.  On a reader that opened, the deferred close only
    logs. *)
Definition recover `{EditLogCodec} (vs : storeVersionSet) (w : World)
  : outcome * storeVersionSet :=
  match readManifestFileName vs w with
  | None => (Err ErrReadCurrent, vs)
  | Some manifestFileName =>
      let manifestPath := getManifestFilePath vs manifestFileName in
      match NewBufioReader manifestPath w with
      | None => (Panic, vs)
      | Some frames => recoverFrames vs frames
      end
  end.

(** [Recover]. *)
Definition Recover `{EditLogCodec} (vs : storeVersionSet) (w : World)
  : outcome * storeVersionSet * World :=
  if Exist (Join (storePath vs) current_name) w then
    match recover vs w with
    | (Nil, vs) => initJournal vs w
    | (failure, vs) => (failure, vs, w)
    end
  else initJournal vs w.

(** ** A codec for the manifest payload *)

(** Modelled from the spec: the payload of a manifest frame is the
    family id as a varint, the number of edits, and for every edit a tag
    byte ([0x01] NewFile: level, file number, smallest key, largest key
    and size; [0x02] DeleteFile: level and file number; [0x03]
    NextFileNumber: the number), every integer a zigzag varint. *)
Module SpecCodec.

Definition byteOf (n : N) : Byte.byte := default Byte.x00 (Byte.of_N n).

Fixpoint putUvarint (fuel : nat) (n : N) : bytes :=
  match fuel with
  | O => []
  | S fuel' =>
      if (n <? 128)%N then [byteOf n]
      else byteOf (128 + n `mod` 128)%N :: putUvarint fuel' (n `div` 128)%N
  end.

Definition zigzag (z : Z) : N :=
  if z <? 0 then Z.to_N (- 2 * z - 1) else Z.to_N (2 * z).

Definition unzigzag (n : N) : Z :=
  if N.even n then Z.of_N n `div` 2 else - ((Z.of_N n + 1) `div` 2).

Definition putVarint (z : Z) : bytes := putUvarint 64 (zigzag z).

Fixpoint getUvarint (bs : bytes) : option (N * bytes) :=
  match bs with
  | [] => None
  | b :: rest =>
      let n := Byte.to_N b in
      if (n <? 128)%N then Some (n, rest)
      else '(m, rest') ← getUvarint rest; Some ((n - 128 + 128 * m)%N, rest')
  end.

Definition getVarint (bs : bytes) : option (Z * bytes) :=
  '(n, rest) ← getUvarint bs; Some (unzigzag n, rest).

Definition putLog (l : Log) : bytes :=
  match l with
  | LogNewFile level file =>
      Byte.x01 :: putVarint level ++ putVarint (fileNumber file)
        ++ putVarint (minKey file) ++ putVarint (maxKey file)
        ++ putVarint (fileSize file)
  | LogDeleteFile level num => Byte.x02 :: putVarint level ++ putVarint num
  | LogNextFileNumber n => Byte.x03 :: putVarint n
  end.

Definition getLog (bs : bytes) : option (Log * bytes) :=
  match bs with
  | Byte.x01 :: bs =>
      '(level, bs) ← getVarint bs;
      '(num, bs) ← getVarint bs;
      '(lo, bs) ← getVarint bs;
      '(hi, bs) ← getVarint bs;
      '(size, bs) ← getVarint bs;
      Some (LogNewFile level (mkFileMeta num lo hi size), bs)
  | Byte.x02 :: bs =>
      '(level, bs) ← getVarint bs;
      '(num, bs) ← getVarint bs;
      Some (LogDeleteFile level num, bs)
  | Byte.x03 :: bs =>
      '(n, bs) ← getVarint bs; Some (LogNextFileNumber n, bs)
  | _ => None
  end.

Fixpoint getLogs (count : nat) (bs : bytes) : option (list Log * bytes) :=
  match count with
  | O => Some ([], bs)
  | S count' =>
      '(l, bs) ← getLog bs;
      '(ls, bs) ← getLogs count' bs;
      Some (l :: ls, bs)
  end.

Definition marshalEditLog (el : EditLog) : option bytes :=
  Some (putVarint (familyID el)
          ++ putUvarint 64 (N.of_nat (length (logs el)))
          ++ mjoin (putLog <$> logs el)).

Definition unmarshalEditLog (bs : bytes) : option EditLog :=
  '(id, bs) ← getVarint bs;
  '(count, bs) ← getUvarint bs;
  '(ls, bs) ← getLogs (N.to_nat count) bs;
  match bs with
  | [] => Some (mkEditLog id ls)
  | _ => None
  end.

Definition codec : EditLogCodec :=
  {| marshal := marshalEditLog; unmarshal := unmarshalEditLog |}.

End SpecCodec.

(** ** The memory database *)

(** Modelled from the spec: package [memdb] (the memory database, the
    metric store and their versioned maps), of which the sources at hand
    hold the tests only.  The numeric payload of a field and its kind
    specific merge are left open: [V] and [merge]. *)
Module Memdb.

Inductive fieldKind :=
| SumField | MinField | MaxField | LastField | HistogramField | CompoundField.

Inductive writeError :=
| ErrEmptyFields
| ErrTooManyTags.

(** [None]: the call panics (no shard to route the point to). *)
Definition writeResult := option (option writeError).

(** FNV-1a on 32 bits. *)
Definition fnvOffset32 : Z := 2166136261.
Definition fnvPrime32 : Z := 16777619.

Fixpoint fnv1a (h : Z) (s : string) : Z :=
  match s with
  | EmptyString => h
  | String c s' =>
      fnv1a ((Z.lxor h (Z.of_nat (Ascii.nat_of_ascii c)) * fnvPrime32) `mod` 2 ^ 32) s'
  end.

Definition Fnv32a (s : string) : Z := fnv1a fnvOffset32 s.

Section WithFields.

Context {V : Type} (merge : fieldKind → V → V → V).

Record Point := mkPoint {
  Name : string;
  Tags : string;
  Timestamp : Z;
  Fields : list (string * (fieldKind * V))
}.

(** A time series store: field name to field store. *)
Definition tsStore := gmap string (fieldKind * V).

Record versionedTSMap := mkVersioned {
  version : Z;
  tsMap : gmap string tsStore;
  familyTimes : gset Z
}.

Record metricStore := mkMetricStore {
  mutable : versionedTSMap;
  immutable : list versionedTSMap;
  maxTagsLimit : Z
}.

Record memoryDatabase := mkDatabase {
  mStoresList : list (gmap Z metricStore);
  defaultMaxTagsLimit : Z;
  familyInterval : Z
}.

Definition newVersionedTSMap (now : Z) : versionedTSMap := mkVersioned now ∅ ∅.

Definition newMetricStore (now limit : Z) : metricStore :=
  mkMetricStore (newVersionedTSMap now) [] limit.

Definition newMemoryDatabase (shards : nat) (limit interval : Z) : memoryDatabase :=
  mkDatabase (replicate shards ∅) limit interval.

(** The time series stores of a metric store, over its mutable and
    its immutable versioned maps. *)
Definition getTagsCount (ms : metricStore) : Z :=
  Z.of_nat (size (tsMap (mutable ms)))
  + foldr (λ vm n, Z.of_nat (size (tsMap vm)) + n) 0 (immutable ms).

Definition getMaxTagsLimit (ms : metricStore) : Z := maxTagsLimit ms.

(** [getOrCreateTSStore(tagSet)]: the entry of the mutable map; before
    one is created the count is held against the limit ([None]:
    TooManyTags). *)
Definition getOrCreateTSStore (tagSet : string) (ms : metricStore)
  : option (tsStore * metricStore) :=
  match tsMap (mutable ms) !! tagSet with
  | Some ts => Some (ts, ms)
  | None =>
      if decide (getMaxTagsLimit ms ≤ getTagsCount ms) then None
      else
        let m := mutable ms in
        Some (∅, mkMetricStore
                    (mkVersioned (version m) (<[tagSet := ∅]> (tsMap m)) (familyTimes m))
                    (immutable ms) (maxTagsLimit ms))
  end.

(** One field of a point goes to its field store: the first value is
    kept, a later one is merged by the kind of the store. *)
Definition writeField (ts : tsStore) (f : string * (fieldKind * V)) : tsStore :=
  match ts !! f.1 with
  | None => <[f.1 := f.2]> ts
  | Some (kind, v) => <[f.1 := (kind, merge kind v f.2.2)]> ts
  end.

(** [write(point)] of the metric store, on the time series store of
    the tag-set of the point. *)
Definition write (p : Point) (interval : Z) (ts : tsStore) (ms : metricStore)
  : metricStore :=
  let m := mutable ms in
  mkMetricStore
    (mkVersioned (version m)
       (<[Tags p := foldl writeField ts (Fields p)]> (tsMap m))
       ({[Timestamp p `div` interval]} ∪ familyTimes m))
    (immutable ms) (maxTagsLimit ms).

(** [freeze()]: the mutable map goes to the tail of the immutable
    ones, a fresh map takes its place. *)
Definition freeze (now : Z) (ms : metricStore) : metricStore :=
  mkMetricStore (newVersionedTSMap now) (immutable ms ++ [mutable ms])
    (maxTagsLimit ms).

Definition bucketIndex (db : memoryDatabase) (hash : Z) : nat :=
  Z.to_nat (Z.land hash (Z.of_nat (length (mStoresList db)) - 1)).

Definition getMStore (db : memoryDatabase) (name : string) : option metricStore :=
  shard ← mStoresList db !! bucketIndex db (Fnv32a name);
  shard !! Fnv32a name.

Definition setMStore (db : memoryDatabase) (name : string) (ms : metricStore)
  : memoryDatabase :=
  let i := bucketIndex db (Fnv32a name) in
  mkDatabase
    (alter (λ shard, <[Fnv32a name := ms]> shard) i (mStoresList db))
    (defaultMaxTagsLimit db) (familyInterval db).

(** [Write(point)]: the point is validated, the metric store and the
    time series store are resolved, the fields are merged.  The time
    series store of a tag-set that the metric holds is resolved also
    when the metric is at its limit; [Test_Write] of the package expects
    TooManyTags there, which no property below depends on. *)
Definition Write (now : Z) (point : option Point) (db : memoryDatabase)
  : writeResult * memoryDatabase :=
  match point with
  | None => (Some (Some ErrEmptyFields), db)
  | Some p =>
      match Fields p with
      | [] => (Some (Some ErrEmptyFields), db)
      | _ =>
          match mStoresList db !! bucketIndex db (Fnv32a (Name p)) with
          | None => (None, db)
          | Some shard =>
              let ms := default (newMetricStore now (defaultMaxTagsLimit db))
                          (shard !! Fnv32a (Name p)) in
              match getOrCreateTSStore (Tags p) ms with
              | None => (Some (Some ErrTooManyTags), setMStore db (Name p) ms)
              | Some (ts, ms) =>
                  (Some None,
                   setMStore db (Name p) (write p (familyInterval db) ts ms))
              end
          end
      end
  end.

(** [ResetMetricStore(name)] freezes the mutable map of the metric
    when it is older than [freezeInterval]; [false]: unknown metric
    or TooRecent. *)
Definition ResetMetricStore (now freezeInterval : Z) (name : string)
    (db : memoryDatabase) : bool * memoryDatabase :=
  match getMStore db name with
  | None => (false, db)
  | Some ms =>
      if decide (version (mutable ms) + freezeInterval ≤ now)
      then (true, setMStore db name (freeze now ms))
      else (false, db)
  end.

(** [CountTags(metric)]: -1 for a metric that is not known. *)
Definition CountTags (db : memoryDatabase) (name : string) : Z :=
  match getMStore db name with
  | None => -1
  | Some ms => getTagsCount ms
  end.

(** The limit a write for the metric is held against. *)
Definition effectiveLimit (db : memoryDatabase) (name : string) : Z :=
  match getMStore db name with
  | None => defaultMaxTagsLimit db
  | Some ms => getMaxTagsLimit ms
  end.

(** The time series held for a metric: the tag-sets with their
    field stores, of the mutable and of the immutable maps. *)
Definition series (db : memoryDatabase) (name : string)
  : gmap string tsStore * list (gmap string tsStore) :=
  match getMStore db name with
  | None => (∅, [])
  | Some ms => (tsMap (mutable ms), tsMap <$> immutable ms)
  end.

(** The number of tag-sets held for a metric, over the mutable and the
    immutable maps of its store. *)
Definition tagsHeld (db : memoryDatabase) (name : string) : Z :=
  match getMStore db name with
  | None => 0
  | Some ms => getTagsCount ms
  end.

(** A write of the point needs a new time series store while the
    metric is at its limit. *)
Definition wouldBreach (db : memoryDatabase) (p : Point) : Prop :=
  (series db (Name p)).1 !! Tags p = None
  ∧ effectiveLimit db (Name p) ≤ tagsHeld db (Name p).

(** Every metric store holds no more tag-sets than its limit. *)
Definition withinLimits (db : memoryDatabase) : Prop :=
  ∀ i shard hash ms,
    mStoresList db !! i = Some shard →
    shard !! hash = Some ms →
    getTagsCount ms ≤ getMaxTagsLimit ms.

Inductive call :=
| CallWrite (now : Z) (point : option Point)
| CallReset (now freezeInterval : Z) (name : string).

Definition step (db : memoryDatabase) (c : call) : memoryDatabase :=
  match c with
  | CallWrite now point => (Write now point db).2
  | CallReset now freezeInterval name =>
      (ResetMetricStore now freezeInterval name db).2
  end.

Definition run (calls : list call) (db : memoryDatabase) : memoryDatabase :=
  foldl step db calls.

End WithFields.

(** The limit 2 on a database with four shards: the third tag-set of a
    metric is refused and nothing of it is kept. *)
Definition sumMerge (kind : fieldKind) (old new : Z) : Z :=
  match kind with
  | SumField | HistogramField | CompoundField => old + new
  | MinField => Z.min old new
  | MaxField => Z.max old new
  | LastField => new
  end.

Definition cpu (tags : string) : Point :=
  mkPoint "cpu.load" tags 86400000 [("value", (SumField, 1))].

Definition twoTags : list call :=
  [CallWrite 1 (Some (cpu "host=a")); CallWrite 2 (Some (cpu "host=b"))].

End Memdb.

(** ** Successive calls and the replay of edit logs *)

(** [n] calls of [NextFileNumber] in a row, with the numbers handed
    out. *)
Fixpoint NextFileNumbers (n : nat) (vs : storeVersionSet) : list Z * storeVersionSet :=
  match n with
  | O => ([], vs)
  | S n' =>
      let '(number, vs) := NextFileNumber vs in
      let '(numbers, vs) := NextFileNumbers n' vs in
      (number :: numbers, vs)
  end.

(** The replay of persisted edit logs in the words of the
    specification: a store level edit log goes to the version set, any
    other one to the head version of the family version registered for
    its family id. *)
Definition replayEditLog (vs : storeVersionSet) (el : EditLog) : storeVersionSet :=
  if decide (familyID el = StoreFamilyID) then applyVersionSet el vs
  else
    match familyIDs vs !! familyID el with
    | None => vs
    | Some familyName =>
        setFamilyVersions vs
          (alter (λ fv, setCurrentVersion fv (apply el (current fv))) familyName
             (familyVersions vs))
    end.

Definition replay (editLogs : list EditLog) (vs : storeVersionSet) : storeVersionSet :=
  foldl replayEditLog vs editLogs.

(** The in-memory state of a version set, the manifest writer apart. *)
Definition memoryState (vs : storeVersionSet)
  : Z * Z * gmap string FamilyVersion * gmap Z string * Z :=
  (manifestFileNumber vs, nextFileNumber vs, familyVersions vs, familyIDs vs,
   versionID vs).



(** The file numbers an edit log records. *)
Definition recordedFiles (el : EditLog) : list Z :=
  omap (λ l, match l with
             | LogNewFile _ file => Some (fileNumber file)
             | _ => None
             end) (logs el).

(** Every name registered for an id has a family version. *)
Definition registered (vs : storeVersionSet) : Prop :=
  ∀ id name, familyIDs vs !! id = Some name → is_Some (familyVersions vs !! name).

(** The events of a snapshot written to [journal]. *)
Definition persistEvents `{EditLogCodec} (journal : string) (editLogs : list EditLog)
  : list event :=
  mjoin ((λ el, match marshal el with
                | Some v => [EvAppend journal v; EvSync journal]
                | None => []
                end) <$> editLogs).

Definition setCurrentEvents (vs : storeVersionSet) (manifestFile : string) : list event :=
  [EvWriteFile (tmpPath vs) manifestFile; EvRename (tmpPath vs) (getCurrentPath vs)].

(** The frames an edit log list leaves in the journal. *)
Definition persistFrames `{EditLogCodec} (editLogs : list EditLog) : list frame :=
  omap (λ el, Frame <$> marshal el) editLogs.

(** The edit logs of the frames of a manifest, when every frame reads
    back and unmarshals. *)
Definition decodeFrame `{EditLogCodec} (f : frame) : option EditLog :=
  match f with
  | Frame record => unmarshal record
  | Corrupt => None
  end.

Definition decodeFrames `{EditLogCodec} (frames : list frame) : option (list EditLog) :=
  mapM decodeFrame frames.

(** The edit logs persisted in the manifest that CURRENT names. *)
Definition manifestLogs `{EditLogCodec} (vs : storeVersionSet) (w : World)
  : option (list EditLog) :=
  manifestFileName ← readManifestFileName vs w;
  frames ← NewBufioReader (getManifestFilePath vs manifestFileName) w;
  decodeFrames frames.

(** The events of [initJournal] when everything succeeds. *)
Definition initJournalEvents `{EditLogCodec} (vs : storeVersionSet)
    (editLogs : list EditLog) : list event :=
  let manifestFileName := ManifestFileName (manifestFileNumber vs) in
  let manifestPath := getManifestFilePath vs manifestFileName in
  EvCreate manifestPath
    :: persistEvents manifestPath editLogs ++ setCurrentEvents vs manifestFileName.

(** [el] is the snapshot of the family version found for the id of an
    entry of [familyIDs]: a [NewFile] edit for every file of every level
    of its head, and nothing else. *)
Definition familySnapshotOf (vs : storeVersionSet) (entry : Z * string) (el : EditLog)
  : Prop :=
  ∃ fv,
    getFamilyVersion vs entry.1 = Some fv
    ∧ familyID el = entry.1
    ∧ ∀ l, l ∈ logs el ↔
           ∃ (level : nat) files_ file,
             levels (current fv) !! level = Some files_
             ∧ file ∈ files_
             ∧ l = LogNewFile (Z.of_nat level) file.

(** ** Recovery in the words of the specification *)









(** ** A store with one family, run through the operations *)

Module Scenario.

#[local] Existing Instance SpecCodec.codec.

Definition file7 : FileMeta := mkFileMeta 7 10 20 100.

Definition edit7 : EditLog := Add (NewEditLog 1) (CreateNewFile 0 file7).

Definition world0 : World := mkWorld ∅ [] [].

(** The version set of a process that registered the family [f]. *)
Definition store0 : storeVersionSet :=
  (CreateFamilyVersion (NewStoreVersionSet "db" 3) "f" 1).2.

(** The first start: CURRENT is absent. *)
Definition store1 : storeVersionSet := (Recover store0 world0).1.2.
Definition world1 : World := (Recover store0 world0).2.

Definition head1 : FamilyVersion :=
  default (newFamilyVersion 1 "f" store0) (GetFamilyVersion store1 "f").

(** A commit of an edit log that records the file 7. *)
Definition committed7 : EditLog := Add edit7 (NewNextFileNumber (nextFileNumber store1)).
Definition store2 : storeVersionSet :=
  (CommitFamilyEditLog store1 world1 "f" edit7).1.1.2.
Definition world2 : World := (CommitFamilyEditLog store1 world1 "f" edit7).1.2.

(** The same commit when the write to the manifest fails. *)
Definition world1_failing : World := mkWorld (files world1) (trace world1) [false].

(** A new process on the files left behind. *)
Definition store3 : storeVersionSet := (Recover store0 world2).1.2.
Definition world3 : World := (Recover store0 world2).2.


(** Two families registered under one id. *)
Definition twins0 : storeVersionSet :=
  (CreateFamilyVersion
     (CreateFamilyVersion (NewStoreVersionSet "db" 3) "a" 1).2 "b" 1).2.
Definition twins1 : storeVersionSet := (Recover twins0 world0).1.2.
Definition twins2 : storeVersionSet :=
  (CommitFamilyEditLog twins1 (Recover twins0 world0).2 "a" edit7).1.1.2.

End Scenario.

(** ** Further operations and the states they reach *)

(** [n] calls of [newVersionID] in a row, with the ids handed out. *)
Fixpoint newVersionIDs (n : nat) (vs : storeVersionSet) : list Z * storeVersionSet :=
  match n with
  | O => ([], vs)
  | S n' =>
      let '(id, vs) := newVersionID vs in
      let '(ids, vs) := newVersionIDs n' vs in
      (id :: ids, vs)
  end.

(** The version sets that a process gets to from [NewStoreVersionSet] by
    the methods of the interface. *)
Inductive reachable `{EditLogCodec} : storeVersionSet → Prop :=
| reach_new (path : string) (n : nat) :
    reachable (NewStoreVersionSet path n)
| reach_create (vs : storeVersionSet) (family : string) (id : Z) :
    reachable vs → reachable (CreateFamilyVersion vs family id).2
| reach_next (vs : storeVersionSet) :
    reachable vs → reachable (NextFileNumber vs).2
| reach_version (vs : storeVersionSet) :
    reachable vs → reachable (newVersionID vs).2
| reach_commit (vs : storeVersionSet) (w : World) (family : string) (el : EditLog) :
    reachable vs → reachable (CommitFamilyEditLog vs w family el).1.1.2
| reach_recover (vs : storeVersionSet) (w : World) :
    reachable vs → reachable (Recover vs w).1.2.

(** The manifest writer appends to the manifest that CURRENT names, and
    this manifest carries the manifest file number. *)
Definition live (vs : storeVersionSet) (w : World) : Prop :=
  manifest vs
  = Some (getManifestFilePath vs (ManifestFileName (manifestFileNumber vs)))
  ∧ ReadFile (getCurrentPath vs) w = Some (ManifestFileName (manifestFileNumber vs)).

(** A string without the separator of [Node.String], the colon. *)
Definition colon : Ascii.ascii := Ascii.ascii_of_nat 58.

Fixpoint colonFree (s : string) : bool :=
  match s with
  | EmptyString => true
  | String c s' => if decide (c = colon) then false else colonFree s'
  end.

(** ** Nodes *)

(** [models/node.go]: the address of a server; [Port] is a [uint16]. *)
Module Models.

Record Node := mkNode {
  IP : string;
  Port : Z
}.

Record Master := mkMaster {
  MasterNode : Node;
  ElectTime : Z
}.

(** [fmt.Sprintf("%s:%d", n.IP, n.Port)]. *)
Definition NodeString (n : Node) : string := IP n +:+ ":" +:+ digits 5 (Port n).

End Models.

(** ** Files that went wrong *)

Module Cases.

(** The frame of a store level edit log for the number 2. *)
Definition storeRecord : bytes :=
  default [] (SpecCodec.marshalEditLog (mkEditLog StoreFamilyID [LogNextFileNumber 2])).

(** A manifest whose second frame does not read back. *)
Definition damaged : World :=
  mkWorld
    (<["db/CURRENT" := Text "MANIFEST-000001"]>
       (<["db/MANIFEST-000001" := Journal [Frame storeRecord; Corrupt]]> ∅))
    [] [].

(** A file system on which the second operation fails. *)
Definition secondFails : World := mkWorld ∅ [] [true; false].

(** CURRENT names a manifest that is not there. *)
Definition dangling : World :=
  mkWorld (<["db/CURRENT" := Text "MANIFEST-000009"]> ∅) [] [].



End Cases.

(** ** Properties of the version set *)

Section Wrap.

Lemma wrap64_small z : in_int64 z → wrap64 z = z.
Proof.
  unfold in_int64, int64_min, int64_max, wrap64. intros Hz.
  rewrite Z.mod_small; lia.
Qed.

Lemma wrap64_add_l a b : wrap64 (wrap64 a + b) = wrap64 (a + b).
Proof.
  unfold wrap64. f_equal.
  replace ((a + 2 ^ 63) `mod` 2 ^ 64 - 2 ^ 63 + b + 2 ^ 63)
    with ((a + 2 ^ 63) `mod` 2 ^ 64 + b) by lia.
  rewrite Zplus_mod_idemp_l. f_equal. lia.
Qed.

Lemma wrap64_range z : in_int64 (wrap64 z).
Proof.
  unfold in_int64, int64_min, int64_max, wrap64.
  pose proof (Z.mod_pos_bound (z + 2 ^ 63) (2 ^ 64)). lia.
Qed.

(** What [NextFileNumber] hands out is the value of the counter before
    the call, whether the addition wraps or not. *)
Lemma NextFileNumber_fetch vs :
  in_int64 (nextFileNumber vs) →
  (NextFileNumber vs).1 = nextFileNumber vs
  ∧ nextFileNumber (NextFileNumber vs).2 = wrap64 (nextFileNumber vs + 1).
Proof.
  intros Hr. unfold NextFileNumber. simpl. split; [|done].
  replace (wrap64 (nextFileNumber vs + 1) - 1)
    with (wrap64 (nextFileNumber vs + 1) + (-1)) by lia.
  rewrite wrap64_add_l.
  replace (nextFileNumber vs + 1 + -1) with (nextFileNumber vs) by lia.
  by apply wrap64_small.
Qed.

(** The counter stays an [int64]. *)
Lemma NextFileNumber_in_int64 vs : in_int64 (nextFileNumber (NextFileNumber vs).2).
Proof. unfold NextFileNumber. simpl. apply wrap64_range. Qed.

End Wrap.

(** *** File numbers *)

Lemma fmap_seq_shift (a : Z) (n : nat) :
  (λ i : nat, a + Z.of_nat i) <$> seq 1 n = (λ i : nat, a + 1 + Z.of_nat i) <$> seq 0 n.
Proof.
  rewrite <- (fmap_S_seq 0 n), <- list_fmap_compose.
  apply list_fmap_ext. intros _ i _. simpl. lia.
Qed.

Lemma NextFileNumbers_spec (n : nat) :
  ∀ vs,
    in_int64 (nextFileNumber vs) →
    nextFileNumber vs + Z.of_nat n - 1 ≤ int64_max →
    (NextFileNumbers n vs).1 = (λ i : nat, nextFileNumber vs + Z.of_nat i) <$> seq 0 n
    ∧ nextFileNumber (NextFileNumbers n vs).2 = wrap64 (nextFileNumber vs + Z.of_nat n).
Proof.
  induction n as [|n IH]; intros vs Hr Hb.
  - simpl. split; [done|]. rewrite Z.add_0_r. symmetry. by apply wrap64_small.
  - destruct (NextFileNumber_fetch vs Hr) as [Hout Hnext].
    cbn [NextFileNumbers].
    destruct (NextFileNumber vs) as [number vs1] eqn:Hcall. simpl in Hout, Hnext.
    destruct (NextFileNumbers n vs1) as [numbers vs2] eqn:Hrest.
    cbn [fst snd seq fmap list_fmap]. rewrite Z.add_0_r, fmap_seq_shift.
    destruct n as [|n'].
    + simpl in Hrest. injection Hrest as <- <-. simpl. split; [by rewrite Hout|].
      by rewrite Hnext.
    + assert (Hsmall : wrap64 (nextFileNumber vs + 1) = nextFileNumber vs + 1).
      { apply wrap64_small. unfold in_int64, int64_min, int64_max in *. lia. }
      rewrite Hsmall in Hnext.
      destruct (IH vs1) as [IH1 IH2].
      { rewrite Hnext. unfold in_int64, int64_min, int64_max in *. lia. }
      { rewrite Hnext. lia. }
      rewrite Hrest in IH1, IH2. simpl in IH1, IH2.
      rewrite Hnext in IH1, IH2. split.
      * rewrite Hout. f_equal. exact IH1.
      * rewrite IH2. f_equal. lia.
Qed.

Lemma consecutive_sorted (a : Z) (n : nat) :
  ∀ s, StronglySorted Z.lt ((λ i : nat, a + Z.of_nat i) <$> seq s n).
Proof.
  induction n as [|n IH]; intros s; simpl; constructor.
  - apply IH.
  - apply Forall_forall. intros x Hx.
    apply list_elem_of_fmap in Hx as (i & -> & Hi).
    apply elem_of_seq in Hi. lia.
Qed.

Lemma consecutive_NoDup (a : Z) (n : nat) :
  NoDup ((λ i : nat, a + Z.of_nat i) <$> seq 0 n).
Proof.
  apply NoDup_fmap_2; [|apply NoDup_seq].
  intros i j Hij. lia.
Qed.

(** C6, as the code has it: [NextFileNumber] hands out the value the
    counter had before the call; while the numbers handed out do not pass
    the largest [int64], [n] calls on one store hand out the [n] numbers
    that follow each other from the counter on, which are strictly
    increasing and pairwise distinct. *)
Theorem NextFileNumber_increasing (vs : storeVersionSet) (n : nat) :
  in_int64 (nextFileNumber vs) →
  nextFileNumber vs + Z.of_nat n - 1 ≤ int64_max →
  (NextFileNumber vs).1 = nextFileNumber vs
  ∧ nextFileNumber (NextFileNumber vs).2 = wrap64 (nextFileNumber vs + 1)
  ∧ (NextFileNumbers n vs).1
    = (λ i : nat, nextFileNumber vs + Z.of_nat i) <$> seq 0 n
  ∧ StronglySorted Z.lt (NextFileNumbers n vs).1
  ∧ NoDup (NextFileNumbers n vs).1.
Proof.
  intros Hr Hb.
  destruct (NextFileNumber_fetch vs Hr) as [H1 H2].
  destruct (NextFileNumbers_spec n vs Hr Hb) as [H3 _].
  rewrite H3. repeat split; try done.
  - apply consecutive_sorted.
  - apply consecutive_NoDup.
Qed.

Lemma NextFileNumber_increasing_witness :
  (NextFileNumbers 3 (NewStoreVersionSet "db" 7)).1 = [2; 3; 4]
  ∧ StronglySorted Z.lt (NextFileNumbers 3 (NewStoreVersionSet "db" 7)).1.
Proof.
  pose proof (NextFileNumber_increasing (NewStoreVersionSet "db" 7) 3) as H.
  destruct H as (_ & _ & H3 & H4 & _).
  - unfold in_int64, int64_min, int64_max. simpl. lia.
  - unfold int64_max. simpl. lia.
  - split; [exact H3 | exact H4].
Defined.

(** C6, as stated, fails where the counter wraps: a store whose counter
    was set to the largest [int64] by the replay of a store level edit
    hands out the largest and then the smallest [int64]. *)
Lemma NextFileNumber_wraps_around :
  let vs := setNextFileNumberWithoutLock (int64_max - 1) (NewStoreVersionSet "db" 7) in
  (NextFileNumbers 2 vs).1 = [int64_max; int64_min]
  ∧ ¬ StronglySorted Z.lt (NextFileNumbers 2 vs).1.
Proof.
  assert (Hcalls :
    (NextFileNumbers 2
       (setNextFileNumberWithoutLock (int64_max - 1) (NewStoreVersionSet "db" 7))).1
    = [int64_max; int64_min]) by (vm_compute; reflexivity).
  cbv zeta. split; [exact Hcalls|].
  rewrite Hcalls. intros Hs. inversion Hs as [|? ? _ Hall]; subst.
  apply Forall_cons in Hall as [Hlt _]. vm_compute in Hlt. discriminate.
Qed.

(** *** Registration of families *)

(** C7: [CreateFamilyVersion] hands back the family version that exists
    for the name and leaves the version set, with both maps, as it is;
    for a new name it makes a family version that the version set then
    holds under the name and under the id, every other entry of the two
    maps being kept.  A second call with the same name changes
    nothing. *)
Theorem CreateFamilyVersion_idempotent (vs : storeVersionSet) (family : string) (id : Z) :
  match GetFamilyVersion vs family with
  | Some existing => CreateFamilyVersion vs family id = (existing, vs)
  | None =>
      let created := (CreateFamilyVersion vs family id).1 in
      let vs' := (CreateFamilyVersion vs family id).2 in
      created = newFamilyVersion id family vs
      ∧ familyVersions vs' = <[family := created]> (familyVersions vs)
      ∧ familyIDs vs' = <[id := family]> (familyIDs vs)
      ∧ GetFamilyVersion vs' family = Some created
      ∧ getFamilyVersion vs' id = Some created
  end
  ∧ ∀ id', CreateFamilyVersion (CreateFamilyVersion vs family id).2 family id'
           = CreateFamilyVersion vs family id.
Proof.
  unfold CreateFamilyVersion.
  destruct (GetFamilyVersion vs family) as [existing|] eqn:Hget.
  - split; [done|]. intros id'. simpl. by rewrite Hget.
  - simpl. split.
    + repeat split; try done.
      * unfold GetFamilyVersion. simpl. apply lookup_insert_eq.
      * unfold getFamilyVersion. simpl. rewrite lookup_insert_eq.
        apply lookup_insert_eq.
    + intros id'. unfold GetFamilyVersion at 1. simpl.
      by rewrite lookup_insert_eq.
Qed.

(** *** The journal *)

Lemma attempt_keeps (w w1 : World) (ok : bool) :
  attempt w = (ok, w1) → files w1 = files w ∧ trace w1 = trace w.
Proof.
  unfold attempt. destruct (faults w); intros [= <- <-]; done.
Qed.

Lemma writerWrite_spec (journal : BufioWriter) (v : bytes) (w w1 : World) (ok : bool) :
  writerWrite journal v w = (ok, w1) →
  if ok then
    trace w1 = trace w ++ [EvAppend journal v]
    ∧ files w1 = <[journal := Journal (journalOf w journal ++ [Frame v])]> (files w)
  else files w1 = files w ∧ trace w1 = trace w.
Proof.
  unfold writerWrite. destruct (attempt w) as [b w2] eqn:Ha.
  apply attempt_keeps in Ha as [Hf Ht].
  destruct b; intros [= <- <-]; simpl; [|done].
  unfold journalOf. by rewrite Hf, Ht.
Qed.

Lemma writerSync_spec (journal : BufioWriter) (w w1 : World) (ok : bool) :
  writerSync journal w = (ok, w1) →
  files w1 = files w
  ∧ trace w1 = if ok then trace w ++ [EvSync journal] else trace w.
Proof.
  unfold writerSync. destruct (attempt w) as [b w2] eqn:Ha.
  apply attempt_keeps in Ha as [Hf Ht].
  destruct b; intros [= <- <-]; simpl; by rewrite ?Hf, ?Ht.
Qed.

(** What [persistEditLogs] does to the world, for every outcome: the
    events are a prefix of the events of the whole list, and all of them
    when the outcome is nil; no other file than the journal changes. *)
Lemma persistEditLogs_spec `{EditLogCodec} (journal : BufioWriter)
    (editLogs : list EditLog) :
  ∀ w o w',
    persistEditLogs (Some journal) editLogs w = (o, w') →
    ∃ evs,
      trace w' = trace w ++ evs
      ∧ evs `prefix_of` persistEvents journal editLogs
      ∧ (∀ p, p ≠ journal → files w' !! p = files w !! p)
      ∧ o ≠ Panic
      ∧ (o = Nil →
         evs = persistEvents journal editLogs
         ∧ Forall (λ el, is_Some (marshal el)) editLogs
         ∧ journalOf w' journal = journalOf w journal ++ persistFrames editLogs).
Proof.
  induction editLogs as [|el rest IH]; intros w o w' Hp; simpl in Hp.
  - injection Hp as <- <-. exists []. rewrite app_nil_r.
    repeat split; try done. simpl. by rewrite app_nil_r.
  - unfold persistEvents, persistFrames. simpl.
    destruct (marshal el) as [v|] eqn:Hm.
    2:{ injection Hp as <- <-. exists []. rewrite app_nil_r.
        repeat split; try done. apply prefix_nil. }
    destruct (writerWrite journal v w) as [written w1] eqn:Hw.
    apply writerWrite_spec in Hw.
    destruct written.
    2:{ injection Hp as <- <-. destruct Hw as [Hf Ht]. exists [].
        rewrite app_nil_r. repeat split; try done.
        - apply prefix_nil.
        - intros p _. by rewrite Hf. }
    destruct Hw as [Ht Hf].
    destruct (writerSync journal w1) as [synced w2] eqn:Hs.
    apply writerSync_spec in Hs as [Hf2 Ht2].
    destruct synced.
    2:{ injection Hp as <- <-. exists [EvAppend journal v].
        repeat split; try done.
        - by rewrite Ht2, Ht.
        - by exists (EvSync journal :: persistEvents journal rest).
        - intros p Hne. by rewrite Hf2, Hf, lookup_insert_ne. }
    destruct (IH _ _ _ Hp) as (evs & Htr & Hpre & Hother & Hnp & Hnil).
    exists ([EvAppend journal v; EvSync journal] ++ evs).
    split; [|split; [|split; [|split]]].
    + rewrite Htr, Ht2, Ht. by rewrite <- !app_assoc.
    + by apply prefix_app.
    + intros p Hne. rewrite (Hother p Hne), Hf2, Hf. by rewrite lookup_insert_ne.
    + done.
    + intros Ho. destruct (Hnil Ho) as (-> & Hall & Hj). split; [done|]. split.
      * constructor; [by eexists|done].
      * rewrite Hj.
        assert (Hj1 : journalOf w2 journal = journalOf w journal ++ [Frame v]).
        { unfold journalOf at 1. rewrite Hf2, Hf, lookup_insert_eq. done. }
        rewrite Hj1. by rewrite <- app_assoc.
Qed.

(** A nil writer: the first edit log that marshals panics. *)
Lemma persistEditLogs_one `{EditLogCodec} (writer : option BufioWriter)
    (el : EditLog) (w w' : World) (o : outcome) :
  persistEditLogs writer [el] w = (o, w') →
  o = Nil →
  ∃ journal record,
    writer = Some journal ∧ marshal el = Some record
    ∧ trace w' = trace w ++ [EvAppend journal record; EvSync journal]
    ∧ journalOf w' journal = journalOf w journal ++ [Frame record].
Proof.
  intros Hp ->. destruct writer as [journal|].
  - destruct (persistEditLogs_spec journal [el] w Nil w' Hp)
      as (evs & Htr & _ & _ & _ & Hnil).
    destruct (Hnil eq_refl) as (-> & Hall & Hj).
    apply Forall_cons in Hall as [[record Hm] _].
    exists journal, record. unfold persistEvents, persistFrames in *.
    simpl in *. rewrite Hm in *. simpl in *. done.
  - simpl in Hp. destruct (marshal el); discriminate.
Qed.

Lemma release_retain (v : Version) : release (retain v) = v.
Proof.
  destruct v as [n ls]. unfold release, retain. simpl. f_equal. lia.
Qed.

(** The levels after an edit log depend on the levels before only. *)
Lemma applyLog_levels (l : Log) (v1 v2 : Version) :
  levels v1 = levels v2 → levels (applyLog l v1) = levels (applyLog l v2).
Proof.
  intros Hl. destruct l as [level file|level num|n]; simpl; [| |done];
    unfold onLevel; case_decide; simpl; congruence.
Qed.

Lemma apply_levels (el : EditLog) (v1 v2 : Version) :
  levels v1 = levels v2 → levels (apply el v1) = levels (apply el v2).
Proof.
  unfold apply. revert v1 v2.
  induction (logs el) as [|l ls IH]; intros v1 v2 Hl; simpl; [done|].
  by apply IH, applyLog_levels.
Qed.

(** *** Commit *)

(** C1: for a name that is not registered the call returns the
    unknown family error and leaves the version set, the world and the
    edit log as they are.  For a registered name the edit log gets one
    more edit, the next file number of the version set; when the persist
    step returns nil, the marshalled edit log was appended to the
    manifest and synced, and the call returns nil with a version set in
    which the lookup of the name finds the installed family version: its
    head is a clone of the former head with the edit log applied (its
    levels are those of the former head after the edits), the former
    head following it in the chain.  Every other name finds what it
    found before, and no id is bound or unbound. *)
Theorem CommitFamilyEditLog_commits `{EditLogCodec} (vs : storeVersionSet) (w : World)
    (family : string) (editLog : EditLog) :
  let committed := Add editLog (NewNextFileNumber (nextFileNumber vs)) in
  (GetFamilyVersion vs family = None →
   CommitFamilyEditLog vs w family editLog
   = (Err (ErrUnknownFamily family), vs, w, editLog))
  ∧ (∀ head w',
       GetFamilyVersion vs family = Some head →
       persistEditLogs (manifest vs) [committed] w = (Nil, w') →
       ∃ journal record installed vs',
         manifest vs = Some journal
         ∧ marshal committed = Some record
         ∧ logs committed = logs editLog ++ [LogNextFileNumber (nextFileNumber vs)]
         ∧ trace w' = trace w ++ [EvAppend journal record; EvSync journal]
         ∧ journalOf w' journal = journalOf w journal ++ [Frame record]
         ∧ CommitFamilyEditLog vs w family editLog = (Nil, vs', w', committed)
         ∧ GetFamilyVersion vs' family = Some installed
         ∧ (∀ other, other ≠ family →
              GetFamilyVersion vs' other = GetFamilyVersion vs other)
         ∧ familyIDs vs' = familyIDs vs
         ∧ manifest vs' = manifest vs
         ∧ current installed = apply committed (cloneVersion (current head))
         ∧ levels (current installed) = levels (apply committed (current head))
         ∧ previous installed = current head :: previous head
         ∧ fvID installed = fvID head
         ∧ fvName installed = fvName head).
Proof.
  intros committed. split.
  - intros Hget. unfold CommitFamilyEditLog. by rewrite Hget.
  - intros head w' Hget Hp.
    destruct (persistEditLogs_one _ _ _ _ _ Hp eq_refl)
      as (journal & record & Hman & Hm & Htr & Hj).
    set (installed :=
           closeOnPrevious
             (appendVersion (GetSnapshot head)
                (apply committed (cloneVersion (current (GetSnapshot head)))))).
    exists journal, record, installed,
      (setFamilyVersions vs (<[family := installed]> (familyVersions vs))).
    split; [done|]. split; [done|]. split; [done|]. split; [done|].
    split; [done|]. split.
    { unfold CommitFamilyEditLog. rewrite Hget. fold committed. by rewrite Hp. }
    split.
    { unfold GetFamilyVersion. simpl. apply lookup_insert_eq. }
    split.
    { intros other Hne. unfold GetFamilyVersion. simpl.
      by rewrite lookup_insert_ne. }
    split; [done|]. split; [done|].
    split; [done|]. split; [by apply apply_levels|]. split; [|done].
    subst installed. simpl. by rewrite release_retain.
Qed.

(** C3: when the persist step of a commit returns an error, the commit
    returns this error and the version set, with the chain of every
    family, is what it was before the call; and whenever a commit
    leaves the version set changed, the marshalled edit log was written
    to the manifest and synced before. *)
Theorem CommitFamilyEditLog_persists_first `{EditLogCodec} (vs : storeVersionSet)
    (w : World) (family : string) (editLog : EditLog) :
  let committed := Add editLog (NewNextFileNumber (nextFileNumber vs)) in
  (∀ head failure w',
     GetFamilyVersion vs family = Some head →
     persistEditLogs (manifest vs) [committed] w = (Err failure, w') →
     CommitFamilyEditLog vs w family editLog = (Err failure, vs, w', committed)
     ∧ GetFamilyVersion (CommitFamilyEditLog vs w family editLog).1.1.2 family
       = Some head)
  ∧ (∀ o vs' w' editLog',
       CommitFamilyEditLog vs w family editLog = (o, vs', w', editLog') →
       vs' ≠ vs →
       o = Nil
       ∧ ∃ journal record,
           manifest vs = Some journal
           ∧ marshal committed = Some record
           ∧ trace w' = trace w ++ [EvAppend journal record; EvSync journal]).
Proof.
  intros committed. split.
  - intros head failure w' Hget Hp.
    assert (Hc : CommitFamilyEditLog vs w family editLog
                 = (Err failure, vs, w', committed)).
    { unfold CommitFamilyEditLog. rewrite Hget. fold committed. by rewrite Hp. }
    split; [exact Hc|]. by rewrite Hc.
  - intros o vs' w' editLog' Hc Hne.
    unfold CommitFamilyEditLog in Hc.
    destruct (GetFamilyVersion vs family) as [head|]; [|by injection Hc as <- <- <- <-].
    fold committed in Hc.
    destruct (persistEditLogs (manifest vs) [committed] w) as [po pw] eqn:Hp.
    destruct po; try by injection Hc as <- <- <- <-.
    injection Hc as <- <- <- <-. split; [done|].
    destruct (persistEditLogs_one _ _ _ _ _ Hp eq_refl)
      as (journal & record & Hman & Hm & Htr & _).
    by exists journal, record.
Qed.

(** *** Replay *)

Lemma applyLog_retain (l : Log) (v : Version) :
  applyLog l (retain v) = retain (applyLog l v).
Proof.
  destruct l as [level file|level num|n]; simpl; try done;
    unfold onLevel; by case_decide.
Qed.

Lemma apply_retain (el : EditLog) (v : Version) :
  apply el (retain v) = retain (apply el v).
Proof.
  unfold apply. revert v. induction (logs el) as [|l ls IH]; intros v; simpl.
  - done.
  - by rewrite applyLog_retain, IH.
Qed.

Lemma applyVersionSet_keeps (el : EditLog) (vs : storeVersionSet) :
  familyVersions (applyVersionSet el vs) = familyVersions vs
  ∧ familyIDs (applyVersionSet el vs) = familyIDs vs
  ∧ manifest (applyVersionSet el vs) = manifest vs
  ∧ storePath (applyVersionSet el vs) = storePath vs
  ∧ versionID (applyVersionSet el vs) = versionID vs
  ∧ numOfLevels (applyVersionSet el vs) = numOfLevels vs.
Proof.
  unfold applyVersionSet. revert vs.
  induction (logs el) as [|l ls IH]; intros vs; simpl; [done|].
  destruct l; simpl; try apply IH.
  destruct (IH (setNextFileNumberWithoutLock n vs)) as (-> & -> & -> & -> & -> & ->).
  done.
Qed.

Lemma applyFamilyVersion_replay (vs vs' : storeVersionSet) (el : EditLog) :
  familyID el ≠ StoreFamilyID →
  applyFamilyVersion vs (familyID el) el = (Nil, vs') →
  vs' = replayEditLog vs el ∧ is_Some (getFamilyVersion vs (familyID el)).
Proof.
  intros Hne. unfold applyFamilyVersion, replayEditLog, getFamilyVersion.
  rewrite decide_False by done.
  destruct (familyIDs vs !! familyID el) as [name|]; [|done].
  destruct (familyVersions vs !! name) as [fv|] eqn:Hfv; [|done].
  intros [= <-]. split; [|by eexists].
  f_equal. apply map_eq. intros key.
  destruct (decide (name = key)) as [<-|Hkey].
  - rewrite lookup_insert_eq, lookup_alter_eq, Hfv. simpl. f_equal.
    unfold closeOnCurrent, setCurrentVersion, GetSnapshot. simpl.
    by rewrite apply_retain, release_retain.
  - by rewrite lookup_insert_ne, lookup_alter_ne.
Qed.

(** One frame of the loop of [recover]: the outcome is nil or an error,
    no family is added or lost, and a nil outcome is the replay of the
    edit log of the frame. *)
Lemma recoverFrame_spec `{EditLogCodec} (vs vs' : storeVersionSet) (f : frame)
    (o : outcome) :
  recoverFrame vs f = (o, vs') →
  o ≠ Panic
  ∧ familyIDs vs' = familyIDs vs
  ∧ dom (familyVersions vs') = dom (familyVersions vs)
  ∧ manifest vs' = manifest vs
  ∧ storePath vs' = storePath vs
  ∧ (o = Nil → ∃ el, decodeFrame f = Some el ∧ vs' = replayEditLog vs el)
  ∧ (o ≠ Nil → vs' = vs).
Proof.
  unfold recoverFrame. destruct f as [record|]; [|by intros [= <- <-]].
  simpl. destruct (unmarshal record) as [el|]; [|by intros [= <- <-]].
  case_decide as Hid.
  - intros [= <- <-].
    destruct (applyVersionSet_keeps el vs) as (Hfv & -> & -> & -> & _).
    rewrite Hfv. repeat split; try done.
    intros _. exists el. split; [done|]. unfold replayEditLog.
    by rewrite decide_True.
  - intros Ha. pose proof Ha as Ha'.
    unfold applyFamilyVersion in Ha.
    destruct (familyIDs vs !! familyID el) as [name|]; [|by injection Ha as <- <-].
    destruct (familyVersions vs !! name) as [fv|] eqn:Hfv;
      [|by injection Ha as <- <-].
    injection Ha as <- <-. simpl. repeat split; try done.
    + apply dom_insert_lookup_L. by eexists.
    + intros _. exists el. split; [done|].
      by apply applyFamilyVersion_replay.
Qed.

Lemma getFamilyVersion_None_keeps (vs vs' : storeVersionSet) (id : Z) :
  familyIDs vs' = familyIDs vs →
  dom (familyVersions vs') = dom (familyVersions vs) →
  getFamilyVersion vs id = None → getFamilyVersion vs' id = None.
Proof.
  unfold getFamilyVersion. intros -> Hdom.
  destruct (familyIDs vs !! id) as [name|]; [|done].
  intros Hnone. apply not_elem_of_dom. rewrite Hdom. by apply not_elem_of_dom.
Qed.

Lemma recoverFrames_spec `{EditLogCodec} (frames : list frame) :
  ∀ vs o vs',
    recoverFrames vs frames = (o, vs') →
    o ≠ Panic
    ∧ familyIDs vs' = familyIDs vs
    ∧ dom (familyVersions vs') = dom (familyVersions vs)
    ∧ manifest vs' = manifest vs
    ∧ storePath vs' = storePath vs
    ∧ (o = Nil → ∃ editLogs,
         decodeFrames frames = Some editLogs ∧ vs' = replay editLogs vs).
Proof.
  induction frames as [|f rest IH]; intros vs o vs' Hr; simpl in Hr.
  - injection Hr as <- <-. repeat split; try done. intros _. by exists [].
  - destruct (recoverFrame vs f) as [o1 vs1] eqn:Hf.
    apply recoverFrame_spec in Hf as (Hnp & Hids & Hdom & Hman & Hpath & Hnil & _).
    destruct o1.
    + destruct (IH _ _ _ Hr) as (Hnp' & -> & -> & -> & -> & Hnil').
      repeat split; try done. intros Ho.
      destruct (Hnil eq_refl) as (el & Hdec & ->).
      destruct (Hnil' Ho) as (els & Hdecs & ->).
      exists (el :: els). split; [|done].
      unfold decodeFrames in *. apply mapM_Some_2. constructor; [done|].
      by apply mapM_Some_1.
    + injection Hr as <- <-. repeat split; try done.
    + done.
Qed.

(** *** CURRENT and the manifest *)

Lemma string_app_assoc (s t u : string) : (s +:+ t) +:+ u = s +:+ t +:+ u.
Proof.
  induction s as [|c s IH]; cbv [String.append]; fold String.append; [done|].
  by f_equal.
Qed.

Lemma paths_distinct (vs : storeVersionSet) (n : Z) :
  getManifestFilePath vs (ManifestFileName n) ≠ getCurrentPath vs
  ∧ getManifestFilePath vs (ManifestFileName n) ≠ tmpPath vs
  ∧ tmpPath vs ≠ getCurrentPath vs.
Proof.
  unfold tmpPath, getManifestFilePath, getCurrentPath, Join, ManifestFileName.
  case_decide.
  - repeat split; intros Heq; cbv [String.append] in Heq; discriminate.
  - repeat split; intros Heq; rewrite ?string_app_assoc in Heq;
      apply (inj (String.append _)) in Heq; cbv [String.append] in Heq;
      discriminate.
Qed.

Lemma NewBufioWriter_spec (path : string) (w w1 : World) (r : option BufioWriter) :
  NewBufioWriter path w = (r, w1) →
  match r with
  | Some writer =>
      writer = path
      ∧ trace w1 = trace w ++ [EvCreate path]
      ∧ files w1 = <[path := Journal []]> (files w)
  | None => files w1 = files w ∧ trace w1 = trace w
  end.
Proof.
  unfold NewBufioWriter. destruct (attempt w) as [b w2] eqn:Ha.
  apply attempt_keeps in Ha as [Hf Ht].
  destruct b; intros [= <- <-]; simpl; by rewrite ?Hf, ?Ht.
Qed.

Lemma WriteFile_spec (path data : string) (w w1 : World) (ok : bool) :
  WriteFile path data w = (ok, w1) →
  if ok then
    trace w1 = trace w ++ [EvWriteFile path data]
    ∧ files w1 = <[path := Text data]> (files w)
  else files w1 = files w ∧ trace w1 = trace w.
Proof.
  unfold WriteFile. destruct (attempt w) as [b w2] eqn:Ha.
  apply attempt_keeps in Ha as [Hf Ht].
  destruct b; intros [= <- <-]; simpl; by rewrite ?Hf, ?Ht.
Qed.

Lemma Rename_spec (src dst : string) (w w1 : World) (ok : bool) :
  Rename src dst w = (ok, w1) →
  if ok then
    ∃ c, files w !! src = Some c
         ∧ trace w1 = trace w ++ [EvRename src dst]
         ∧ files w1 = <[dst := c]> (delete src (files w))
  else files w1 = files w ∧ trace w1 = trace w.
Proof.
  unfold Rename. destruct (attempt w) as [b w2] eqn:Ha.
  apply attempt_keeps in Ha as [Hf Ht]. rewrite Hf.
  destruct b, (files w !! src) as [c|]; intros [= <- <-]; simpl;
    rewrite ?Hf, ?Ht; eauto.
Qed.

(** What [setCurrent] does, for every outcome. *)
Lemma setCurrent_spec (vs : storeVersionSet) (manifestFile : string)
    (w w' : World) (o : outcome) :
  setCurrent vs manifestFile w = (o, w') →
  ∃ evs,
    trace w' = trace w ++ evs
    ∧ evs `prefix_of` setCurrentEvents vs manifestFile
    ∧ o ≠ Panic
    ∧ (∀ p, p ≠ getCurrentPath vs → p ≠ tmpPath vs → files w' !! p = files w !! p)
    ∧ (o = Nil →
       evs = setCurrentEvents vs manifestFile
       ∧ files w' !! getCurrentPath vs = Some (Text manifestFile)
       ∧ files w' !! tmpPath vs = None)
    ∧ (o ≠ Nil →
       files w' !! getCurrentPath vs = files w !! getCurrentPath vs
       ∧ EvRename (tmpPath vs) (getCurrentPath vs) ∉ evs).
Proof.
  unfold setCurrent, setCurrentEvents.
  destruct (paths_distinct vs 0) as (_ & _ & Htmp).
  destruct (WriteFile (tmpPath vs) manifestFile w) as [written w1] eqn:Hw.
  apply WriteFile_spec in Hw. destruct written.
  2:{ destruct Hw as [Hf Ht]. intros [= <- <-]. exists [].
      rewrite app_nil_r, Hf. repeat split; try done.
      - apply prefix_nil.
      - apply not_elem_of_nil. }
  destruct Hw as [Ht Hf].
  destruct (Rename (tmpPath vs) (getCurrentPath vs) w1) as [renamed w2] eqn:Hr.
  apply Rename_spec in Hr. destruct renamed.
  - destruct Hr as (c & Hc & Ht2 & Hf2). intros [= <- <-].
    rewrite Hf, lookup_insert_eq in Hc. injection Hc as <-.
    exists [EvWriteFile (tmpPath vs) manifestFile;
            EvRename (tmpPath vs) (getCurrentPath vs)].
    repeat split; try done.
    + rewrite Ht2, Ht. by rewrite <- app_assoc.
    + intros p Hp1 Hp2. rewrite Hf2, Hf.
      by rewrite lookup_insert_ne, lookup_delete_ne, lookup_insert_ne.
    + rewrite Hf2. apply lookup_insert_eq.
    + rewrite Hf2. rewrite lookup_insert_ne by done. apply lookup_delete_eq.
  - destruct Hr as [Hf2 Ht2]. intros [= <- <-].
    exists [EvWriteFile (tmpPath vs) manifestFile]. repeat split; try done.
    + by rewrite Ht2, Ht.
    + by exists [EvRename (tmpPath vs) (getCurrentPath vs)].
    + intros p _ Hp2. rewrite Hf2, Hf. by rewrite lookup_insert_ne.
    + rewrite Hf2, Hf. by rewrite lookup_insert_ne.
    + intros Hin. apply list_elem_of_singleton in Hin. discriminate.
Qed.

Lemma persistEvents_elem `{EditLogCodec} (journal : string) (editLogs : list EditLog)
    (ev : event) :
  ev ∈ persistEvents journal editLogs →
  ev = EvSync journal ∨ ∃ v, ev = EvAppend journal v.
Proof.
  unfold persistEvents. intros Hin.
  apply list_elem_of_join in Hin as (evs & Hev & Hevs).
  apply list_elem_of_fmap in Hevs as (el & -> & _).
  destruct (marshal el) as [v|]; [|by apply elem_of_nil in Hev].
  apply elem_of_cons in Hev as [->|Hev]; [right; by exists v|].
  apply list_elem_of_singleton in Hev as ->. by left.
Qed.

Lemma initJournal_memoryState `{EditLogCodec} (vs vs' : storeVersionSet) (w w' : World)
    (o : outcome) :
  initJournal vs w = (o, vs', w') →
  memoryState vs' = memoryState vs
  ∧ storePath vs' = storePath vs
  ∧ (manifest vs' = manifest vs
     ∨ o = Nil
       ∧ manifest vs'
         = Some (getManifestFilePath vs (ManifestFileName (manifestFileNumber vs)))).
Proof.
  unfold initJournal. destruct (manifest vs) eqn:Hman.
  { intros [= <- <- <-]. rewrite Hman. auto. }
  destruct (NewBufioWriter _ w) as [[writer|] w1] eqn:Hnew;
    [|intros [= <- <- <-]; rewrite Hman; auto].
  apply NewBufioWriter_spec in Hnew as (-> & _ & _).
  destruct (createSnapshot vs) as [editLogs|];
    [|intros [= <- <- <-]; rewrite Hman; auto].
  destruct (persistEditLogs _ editLogs w1) as [[| |] w2];
    try (intros [= <- <- <-]; rewrite Hman; auto).
  destruct (setCurrent vs _ w2) as [[| |] w3];
    intros [= <- <- <-]; rewrite ?Hman; simpl; auto.
Qed.

(** What [initJournal] does when no manifest writer is set yet, for
    every outcome. *)
Lemma initJournal_spec `{EditLogCodec} (vs vs' : storeVersionSet) (w w' : World)
    (o : outcome) (editLogs : list EditLog) :
  manifest vs = None →
  createSnapshot vs = Some editLogs →
  initJournal vs w = (o, vs', w') →
  let manifestFileName := ManifestFileName (manifestFileNumber vs) in
  let manifestPath := getManifestFilePath vs manifestFileName in
  ∃ evs,
    trace w' = trace w ++ evs
    ∧ evs `prefix_of` initJournalEvents vs editLogs
    ∧ (o = Nil
       ∧ evs = initJournalEvents vs editLogs
       ∧ vs' = setManifest vs (Some manifestPath)
       ∧ journalOf w' manifestPath = persistFrames editLogs
       ∧ files w' !! getCurrentPath vs = Some (Text manifestFileName)
       ∨ o ≠ Nil
         ∧ vs' = vs
         ∧ (EvRename (tmpPath vs) (getCurrentPath vs) ∉ evs)
         ∧ files w' !! getCurrentPath vs = files w !! getCurrentPath vs).
Proof.
  intros Hman Hsnap. unfold initJournal, initJournalEvents.
  rewrite Hman, Hsnap.
  destruct (paths_distinct vs (manifestFileNumber vs)) as (Hmc & Hmt & Htc).
  set (name := ManifestFileName (manifestFileNumber vs)) in *.
  set (path := getManifestFilePath vs name) in *.
  destruct (NewBufioWriter path w) as [[writer|] w1] eqn:Hnew;
    apply NewBufioWriter_spec in Hnew; simpl in Hnew.
  2:{ destruct Hnew as [Hf Ht]. intros [= <- <- <-]. exists [].
      rewrite app_nil_r. split; [done|]. split; [apply prefix_nil|].
      right. rewrite Hf. repeat split; try done. apply not_elem_of_nil. }
  destruct Hnew as (-> & Ht1 & Hf1).
  destruct (persistEditLogs (Some path) editLogs w1) as [po w2] eqn:Hp.
  destruct (persistEditLogs_spec path editLogs w1 po w2 Hp)
    as (pevs & Ht2 & Hpre2 & Hother2 & Hnp2 & Hnil2).
  assert (Hprefix : EvCreate path :: pevs
            `prefix_of` EvCreate path :: persistEvents path editLogs
                          ++ setCurrentEvents vs name).
  { apply prefix_cons. destruct Hpre2 as [k ->]. rewrite <- app_assoc.
    by eexists. }
  assert (Hnorename : EvRename (tmpPath vs) (getCurrentPath vs)
                        ∉ EvCreate path :: pevs).
  { intros Hin. apply elem_of_cons in Hin as [Hin|Hin]; [discriminate|].
    eapply elem_of_prefix in Hin; [|exact Hpre2].
    apply persistEvents_elem in Hin as [Hin|[v Hin]]; discriminate. }
  assert (Hcur2 : files w2 !! getCurrentPath vs = files w !! getCurrentPath vs).
  { rewrite Hother2 by done. rewrite Hf1. by rewrite lookup_insert_ne. }
  destruct po.
  - destruct (Hnil2 eq_refl) as (-> & _ & Hj2).
    destruct (setCurrent vs name w2) as [so w3] eqn:Hs.
    destruct (setCurrent_spec vs name w2 w3 so Hs)
      as (sevs & Ht3 & Hpre3 & Hnp3 & Hother3 & Hnil3 & Hfail3).
    destruct so.
    + intros [= <- <- <-]. destruct (Hnil3 eq_refl) as (-> & Hcur & _).
      exists (EvCreate path :: persistEvents path editLogs
                ++ setCurrentEvents vs name).
      split; [by rewrite Ht3, Ht2, Ht1, <- !app_assoc|].
      split; [done|]. left. repeat split; try done.
      unfold journalOf at 1. rewrite Hother3 by done.
      fold (journalOf w2 path). rewrite Hj2.
      unfold journalOf. by rewrite Hf1, lookup_insert_eq.
    + intros [= <- <- <-].
      exists (EvCreate path :: persistEvents path editLogs ++ sevs).
      split; [by rewrite Ht3, Ht2, Ht1, <- !app_assoc|].
      split; [by apply prefix_cons, prefix_app|].
      right. destruct (Hfail3 ltac:(done)) as [Hcur Hnr].
      repeat split; try done.
      * intros Hin. apply elem_of_cons in Hin as [Hin|Hin]; [discriminate|].
        apply elem_of_app in Hin as [Hin|Hin]; [|done].
        apply persistEvents_elem in Hin as [Hin|[v Hin]]; discriminate.
      * by rewrite Hcur.
    + done.
  - intros [= <- <- <-]. exists (EvCreate path :: pevs).
    split; [by rewrite Ht2, Ht1, <- !app_assoc|].
    split; [done|]. right. repeat split; done.
  - done.
Qed.

(** *** The snapshot *)

Lemma foldl_Add (ls : list Log) :
  ∀ el, foldl Add el ls = mkEditLog (familyID el) (logs el ++ ls).
Proof.
  induction ls as [|l ls IH]; intros el; simpl.
  - rewrite app_nil_r. by destruct el.
  - rewrite IH. simpl. by rewrite <- app_assoc.
Qed.

Lemma createFamilySnapshot_logs (id : Z) (fv : FamilyVersion) :
  createFamilySnapshot id fv = mkEditLog id (levelEdits (levels (current fv))).
Proof. unfold createFamilySnapshot. by rewrite foldl_Add. Qed.

Lemma levelEdits_elem (lvls : list (list FileMeta)) (l : Log) :
  l ∈ levelEdits lvls ↔
  ∃ (level : nat) files_ file,
    lvls !! level = Some files_ ∧ file ∈ files_
    ∧ l = LogNewFile (Z.of_nat level) file.
Proof.
  unfold levelEdits. rewrite list_elem_of_join. split.
  - intros (edits & Hl & Hedits).
    apply elem_of_lookup_imap in Hedits as (level & files_ & -> & Hlvl).
    apply list_elem_of_fmap in Hl as (file & -> & Hfile).
    by exists level, files_, file.
  - intros (level & files_ & file & Hlvl & Hfile & ->).
    eexists. split; [|by apply elem_of_lookup_imap_2].
    apply list_elem_of_fmap. by exists file.
Qed.

Lemma familySnapshots_spec (vs : storeVersionSet) (entries : list (Z * string)) :
  ∀ editLogs,
    Forall (λ entry, familyIDs vs !! entry.1 = Some entry.2) entries →
    familySnapshots vs entries = Some editLogs →
    Forall2 (familySnapshotOf vs) entries editLogs.
Proof.
  induction entries as [|[id name] rest IH]; intros editLogs Hall Hs; simpl in Hs.
  - injection Hs as <-. constructor.
  - apply Forall_cons in Hall as [Hid Hall]. simpl in Hid.
    destruct (familyVersions vs !! name) as [fv|] eqn:Hfv; [|done].
    destruct (familySnapshots vs rest) as [logs_|]; [|done].
    injection Hs as <-. constructor; [|by apply IH].
    exists fv. unfold getFamilyVersion. simpl. rewrite Hid.
    rewrite createFamilySnapshot_logs. simpl.
    split; [done|]. split; [done|]. apply levelEdits_elem.
Qed.

Lemma createSnapshot_spec (vs : storeVersionSet) (editLogs : list EditLog) :
  createSnapshot vs = Some editLogs →
  ∃ familyLogs,
    editLogs
    = familyLogs ++ [mkEditLog StoreFamilyID [LogNextFileNumber (nextFileNumber vs)]]
    ∧ Forall2 (familySnapshotOf vs) (map_to_list (familyIDs vs)) familyLogs.
Proof.
  unfold createSnapshot.
  destruct (familySnapshots vs (map_to_list (familyIDs vs))) as [familyLogs|] eqn:Hs;
    [|done].
  intros [= <-]. exists familyLogs. split; [done|].
  apply familySnapshots_spec; [|done].
  apply Forall_forall. intros [id name] Hin.
  by apply elem_of_map_to_list in Hin.
Qed.

Lemma createSnapshot_registered (vs : storeVersionSet) :
  registered vs → is_Some (createSnapshot vs).
Proof.
  intros Hreg. unfold createSnapshot.
  assert (Hall : Forall (λ entry, familyIDs vs !! entry.1 = Some entry.2)
                   (map_to_list (familyIDs vs))).
  { apply Forall_forall. intros [id name] Hin.
    by apply elem_of_map_to_list in Hin. }
  induction (map_to_list (familyIDs vs)) as [|[id name] rest IH]; simpl.
  - by eexists.
  - apply Forall_cons in Hall as [Hid Hall]. simpl in Hid.
    destruct (Hreg id name Hid) as [fv ->].
    destruct (IH Hall) as [logs_ Hlogs].
    destruct (familySnapshots vs rest); [by eexists|done].
Qed.

(** C4, as the code has it: when no manifest writer is set,
    [initJournal] creates the manifest named by the manifest file
    number, writes and syncs the snapshot to it edit log by edit log,
    and only then writes the temporary file and renames it to CURRENT:
    the rename happens only after all these events.  The snapshot holds
    one edit log for every entry of [familyIDs], made of a [NewFile] edit
    for every file of every level of the head of the family version
    found for that id, and then the store level edit log with the next
    file number; a registered family has its edit log when its id still
    is bound to its name.  The manifest writer is set exactly when the
    outcome is nil, that is after both steps succeeded. *)
Theorem initJournal_snapshot_before_current `{EditLogCodec}
    (vs vs' : storeVersionSet) (w w' : World) (o : outcome) (editLogs : list EditLog) :
  manifest vs = None →
  createSnapshot vs = Some editLogs →
  initJournal vs w = (o, vs', w') →
  let manifestFileName := ManifestFileName (manifestFileNumber vs) in
  let manifestPath := getManifestFilePath vs manifestFileName in
  let swap := EvRename (tmpPath vs) (getCurrentPath vs) in
  (∃ familyLogs,
     editLogs
     = familyLogs ++ [mkEditLog StoreFamilyID [LogNextFileNumber (nextFileNumber vs)]]
     ∧ Forall2 (familySnapshotOf vs) (map_to_list (familyIDs vs)) familyLogs
     ∧ length familyLogs = size (familyIDs vs)
     ∧ ∀ name fv,
         familyVersions vs !! name = Some fv →
         familyIDs vs !! fvID fv = Some name →
         ∃ el, el ∈ familyLogs ∧ familySnapshotOf vs (fvID fv, name) el)
  ∧ ∃ evs,
      trace w' = trace w ++ evs
      ∧ evs `prefix_of`
          EvCreate manifestPath
            :: persistEvents manifestPath editLogs
                 ++ [EvWriteFile (tmpPath vs) manifestFileName; swap]
      ∧ (swap ∈ evs →
         evs = EvCreate manifestPath
                 :: persistEvents manifestPath editLogs
                      ++ [EvWriteFile (tmpPath vs) manifestFileName; swap])
      ∧ (o = Nil
         ∧ manifest vs' = Some manifestPath
         ∧ swap ∈ evs
         ∧ journalOf w' manifestPath = persistFrames editLogs
         ∧ files w' !! getCurrentPath vs = Some (Text manifestFileName)
         ∨ o ≠ Nil
           ∧ manifest vs' = None
           ∧ (swap ∉ evs)
           ∧ files w' !! getCurrentPath vs = files w !! getCurrentPath vs).
Proof.
  intros Hman Hsnap Hinit name path swap.
  split.
  { destruct (createSnapshot_spec vs editLogs Hsnap) as (familyLogs & -> & Hall).
    exists familyLogs. split; [done|]. split; [done|]. split.
    - apply Forall2_length in Hall. by rewrite <- Hall, length_map_to_list.
    - intros family fv _ Hbound.
      apply elem_of_map_to_list, list_elem_of_lookup in Hbound as [i Hi].
      destruct (Forall2_lookup_l _ _ _ _ _ Hall Hi) as (el & Hel & Hof).
      exists el. split; [|done]. apply list_elem_of_lookup. by exists i. }
  destruct (initJournal_spec vs vs' w w' o editLogs Hman Hsnap Hinit)
    as (evs & Htr & Hpre & Hcases).
  unfold initJournalEvents, setCurrentEvents in *.
  fold name path swap in Hpre, Hcases.
  exists evs. split; [done|]. split; [done|]. split.
  - intros Hin.
    destruct Hcases as [(_ & -> & _)|(_ & _ & Hnot & _)]; [done|].
    by destruct Hnot.
  - destruct Hcases as [(-> & -> & -> & Hj & Hc)|(Hne & -> & Hnot & Hc)].
    + left. repeat split; try done.
      apply elem_of_cons. right. apply elem_of_app. right.
      apply elem_of_cons. right. by apply list_elem_of_singleton.
    + by right.
Qed.

(** C5, as the code has it: [setCurrent] writes the manifest file name
    to the temporary file and renames the temporary file to CURRENT,
    without a sync of the temporary file in between; when it returns nil
    CURRENT holds the new name, when it returns an error CURRENT is what
    it was, and no other file than these two is touched. *)
Theorem setCurrent_write_then_rename (vs : storeVersionSet) (manifestFile : string)
    (w : World) :
  let result := setCurrent vs manifestFile w in
  ∃ evs,
    trace result.2 = trace w ++ evs
    ∧ evs `prefix_of` [EvWriteFile (tmpPath vs) manifestFile;
                        EvRename (tmpPath vs) (getCurrentPath vs)]
    ∧ (∀ p, EvSync p ∉ evs)
    ∧ (result.1 = Nil →
       evs = [EvWriteFile (tmpPath vs) manifestFile;
              EvRename (tmpPath vs) (getCurrentPath vs)]
       ∧ ReadFile (getCurrentPath vs) result.2 = Some manifestFile)
    ∧ (result.1 ≠ Nil →
       files result.2 !! getCurrentPath vs = files w !! getCurrentPath vs)
    ∧ (∀ p, p ≠ getCurrentPath vs → p ≠ tmpPath vs →
            files result.2 !! p = files w !! p).
Proof.
  intros result. destruct result as [o w'] eqn:Hres. subst result.
  destruct (setCurrent_spec vs manifestFile w w' o Hres)
    as (evs & Htr & Hpre & _ & Hother & Hnil & Hfail).
  exists evs. simpl. split; [done|]. split; [done|]. split.
  { intros p Hin. eapply elem_of_prefix in Hin; [|exact Hpre].
    unfold setCurrentEvents in Hin.
    apply elem_of_cons in Hin as [Hin|Hin]; [discriminate|].
    apply list_elem_of_singleton in Hin. discriminate. }
  split; [|split; [|done]].
  - intros Ho. destruct (Hnil Ho) as (-> & Hcur & _). split; [done|].
    unfold ReadFile. by rewrite Hcur.
  - intros Ho. by destruct (Hfail Ho).
Qed.

(** *** Recovery *)

(** [recover] panics exactly when CURRENT names a manifest that does not
    open; it adds and loses no family, and a nil outcome is the replay
    of the edit logs of the manifest. *)
Lemma recover_spec `{EditLogCodec} (vs vs1 : storeVersionSet) (w : World) (o : outcome) :
  recover vs w = (o, vs1) →
  (o = Panic ↔
   ∃ manifestFileName,
     readManifestFileName vs w = Some manifestFileName
     ∧ NewBufioReader (getManifestFilePath vs manifestFileName) w = None)
  ∧ familyIDs vs1 = familyIDs vs
  ∧ dom (familyVersions vs1) = dom (familyVersions vs)
  ∧ manifest vs1 = manifest vs
  ∧ storePath vs1 = storePath vs
  ∧ (o = Nil → ∃ editLogs,
       manifestLogs vs w = Some editLogs ∧ vs1 = replay editLogs vs).
Proof.
  unfold recover, manifestLogs.
  destruct (readManifestFileName vs w) as [name|].
  2:{ intros [= <- <-]. repeat split; try done. by intros (? & ? & _). }
  simpl.
  destruct (NewBufioReader (getManifestFilePath vs name) w) as [frames|] eqn:Hread.
  2:{ intros [= <- <-]. repeat split; try done. intros _. by exists name. }
  simpl. intros Hr.
  apply recoverFrames_spec in Hr as (Hnp & Hrest). split; [|exact Hrest].
  split; [done|]. intros (name' & [= <-] & Hnone). congruence.
Qed.

Lemma readManifestFileName_Exist (vs : storeVersionSet) (w : World) (name : string) :
  readManifestFileName vs w = Some name → Exist (getCurrentPath vs) w = true.
Proof.
  unfold readManifestFileName, ReadFile, Exist. intros Hname.
  apply bool_decide_eq_true.
  destruct (files w !! getCurrentPath vs); [by eexists|done].
Qed.


Lemma initJournal_Nil `{EditLogCodec} (vs vs' : storeVersionSet) (w w' : World) :
  manifest vs = None →
  initJournal vs w = (Nil, vs', w') →
  is_Some (createSnapshot vs).
Proof.
  unfold initJournal. intros ->.
  destruct (NewBufioWriter _ w) as [[writer|] w1]; [|done].
  destruct (createSnapshot vs); [by eexists|done].
Qed.


Lemma recoverFrames_unknown `{EditLogCodec} (frames : list frame) (record : bytes)
    (editLog : EditLog) :
  Frame record ∈ frames →
  unmarshal record = Some editLog →
  familyID editLog ≠ StoreFamilyID →
  ∀ vs,
    getFamilyVersion vs (familyID editLog) = None →
    ∃ failure vs', recoverFrames vs frames = (Err failure, vs').
Proof.
  intros Hin Hun Hid. induction frames as [|f rest IH]; intros vs Hnone.
  - by apply elem_of_nil in Hin.
  - simpl. destruct (recoverFrame vs f) as [o1 vs1] eqn:Hf.
    pose proof Hf as Hspec.
    apply recoverFrame_spec in Hspec as (Hnp & Hids & Hdom & _ & _ & _ & _).
    destruct o1; [|by eauto|done].
    apply elem_of_cons in Hin as [<-|Hin].
    + exfalso. unfold recoverFrame in Hf. rewrite Hun in Hf.
      rewrite decide_False in Hf by done.
      unfold applyFamilyVersion in Hf. unfold getFamilyVersion in Hnone.
      destruct (familyIDs vs !! familyID editLog) as [name|]; [|done].
      by rewrite Hnone in Hf.
    + apply IH; [done|]. by eapply getFamilyVersion_None_keeps.
Qed.

Lemma persistFrames_cons `{EditLogCodec} (el : EditLog) (rest : list EditLog)
    (v : bytes) :
  marshal el = Some v → persistFrames (el :: rest) = Frame v :: persistFrames rest.
Proof. intros Hm. unfold persistFrames. simpl. by rewrite Hm. Qed.


















(** C10: when a frame of the manifest that CURRENT names holds an edit
    log whose family id is not the store's and has no family version,
    [Recover] returns an error; it registers no family on the way and
    leaves the files as they are. *)
Theorem Recover_unknown_family `{EditLogCodec} (vs : storeVersionSet) (w : World)
    (manifestFileName : string) (frames : list frame) (record : bytes)
    (editLog : EditLog) :
  readManifestFileName vs w = Some manifestFileName →
  NewBufioReader (getManifestFilePath vs manifestFileName) w = Some frames →
  Frame record ∈ frames →
  unmarshal record = Some editLog →
  familyID editLog ≠ StoreFamilyID →
  getFamilyVersion vs (familyID editLog) = None →
  ∃ failure vs',
    Recover vs w = (Err failure, vs', w)
    ∧ familyIDs vs' = familyIDs vs
    ∧ dom (familyVersions vs') = dom (familyVersions vs)
    ∧ getFamilyVersion vs' (familyID editLog) = None.
Proof.
  intros Hname Hframes Hin Hun Hid Hnone.
  destruct (recoverFrames_unknown frames record editLog Hin Hun Hid vs Hnone)
    as (failure & vs' & Hrec).
  exists failure, vs'.
  assert (Hrecover : recover vs w = (Err failure, vs')).
  { unfold recover. by rewrite Hname, Hframes. }
  assert (Hexist : Exist (Join (storePath vs) current_name) w = true).
  { unfold Exist. apply bool_decide_eq_true.
    unfold readManifestFileName, ReadFile, getCurrentPath in Hname.
    destruct (files w !! Join (storePath vs) current_name); [by eexists|done]. }
  apply recover_spec in Hrecover as Hspec.
  destruct Hspec as (_ & Hids & Hdom & _).
  split; [|split; [done|split; [done|]]].
  - unfold Recover. by rewrite Hexist, Hrecover.
  - by eapply getFamilyVersion_None_keeps.
Qed.

(** *** The next file number after a recovery *)


(** *** Version sets that the operations reach *)

Lemma registered_keeps (vs vs' : storeVersionSet) :
  familyIDs vs' = familyIDs vs →
  dom (familyVersions vs') = dom (familyVersions vs) →
  registered vs → registered vs'.
Proof.
  intros Hids Hdom Hreg id name Hid. rewrite Hids in Hid.
  apply elem_of_dom. rewrite Hdom. apply elem_of_dom. by eapply Hreg.
Qed.

Lemma registered_new (path : string) (n : nat) :
  registered (NewStoreVersionSet path n).
Proof. intros id name Hid. simpl in Hid. by rewrite lookup_empty in Hid. Qed.

Lemma registered_create (vs : storeVersionSet) (family : string) (id : Z) :
  registered vs → registered (CreateFamilyVersion vs family id).2.
Proof.
  intros Hreg. unfold CreateFamilyVersion.
  destruct (GetFamilyVersion vs family); [done|]. simpl.
  intros id' name Hid. simpl in *.
  destruct (decide (id = id')) as [<-|Hne].
  - rewrite lookup_insert_eq in Hid. injection Hid as <-.
    rewrite lookup_insert_eq. by eexists.
  - rewrite lookup_insert_ne in Hid by done.
    destruct (decide (family = name)) as [<-|Hname].
    + rewrite lookup_insert_eq. by eexists.
    + rewrite lookup_insert_ne by done. by eapply Hreg.
Qed.

Lemma registered_commit `{EditLogCodec} (vs : storeVersionSet) (w : World)
    (family : string) (editLog : EditLog) :
  registered vs → registered (CommitFamilyEditLog vs w family editLog).1.1.2.
Proof.
  intros Hreg. unfold CommitFamilyEditLog.
  destruct (GetFamilyVersion vs family) as [head|] eqn:Hget; [|done].
  destruct (persistEditLogs _ _ w) as [[| |] w']; try done. simpl.
  eapply registered_keeps; [| |exact Hreg]; [done|]. simpl.
  apply dom_insert_lookup_L. by eexists.
Qed.

Lemma registered_Recover `{EditLogCodec} (vs : storeVersionSet) (w : World) :
  registered vs → registered (Recover vs w).1.2.
Proof.
  intros Hreg. unfold Recover.
  destruct (Exist _ w).
  - destruct (recover vs w) as [o1 vs1] eqn:Hrec.
    apply recover_spec in Hrec as (_ & Hids & Hdom & _).
    assert (Hreg1 : registered vs1) by by eapply registered_keeps.
    destruct o1; try done.
    destruct (initJournal vs1 w) as [[o2 vs2] w2] eqn:Hinit.
    apply initJournal_memoryState in Hinit as (Hmem & _).
    injection Hmem as _ _ Hfv Hid2 _. simpl.
    eapply registered_keeps; [exact Hid2|by rewrite Hfv|exact Hreg1].
  - destruct (initJournal vs w) as [[o2 vs2] w2] eqn:Hinit.
    apply initJournal_memoryState in Hinit as (Hmem & _).
    injection Hmem as _ _ Hfv Hid2 _. simpl.
    eapply registered_keeps; [exact Hid2|by rewrite Hfv|exact Hreg].
Qed.

(** On such a version set [createSnapshot] finds a family version for
    every id: [initJournal] does not panic. *)
Lemma initJournal_no_panic `{EditLogCodec} (vs vs' : storeVersionSet) (w w' : World)
    (o : outcome) :
  registered vs → initJournal vs w = (o, vs', w') → o ≠ Panic.
Proof.
  intros Hreg. destruct (createSnapshot_registered vs Hreg) as [editLogs Hsnap].
  unfold initJournal. rewrite Hsnap.
  destruct (manifest vs); [by intros [= <- _ _]|].
  destruct (NewBufioWriter _ w) as [[writer|] w1] eqn:Hnew;
    [|by intros [= <- _ _]].
  apply NewBufioWriter_spec in Hnew as (-> & _).
  destruct (persistEditLogs _ editLogs w1) as [po w2] eqn:Hp.
  apply persistEditLogs_spec in Hp as (_ & _ & _ & _ & Hnp & _).
  destruct po; [|by intros [= <- _ _]|done].
  destruct (setCurrent vs _ w2) as [so w3] eqn:Hs.
  apply setCurrent_spec in Hs as (_ & _ & _ & Hnp3 & _).
  destruct so; by intros [= <- _ _].
Qed.

(** ** The operations on the store with one family *)

Section Run.

Import Scenario.

#[local] Existing Instance SpecCodec.codec.

Lemma CommitFamilyEditLog_commits_witness :
  CommitFamilyEditLog store1 world1 "g" edit7
  = (Err (ErrUnknownFamily "g"), store1, world1, edit7)
  ∧ (CommitFamilyEditLog store1 world1 "f" edit7).1.1.1 = Nil
  ∧ ∃ installed,
      GetFamilyVersion store2 "f" = Some installed
      ∧ levels (current installed) = [[file7]; []; []]
      ∧ previous installed = [current head1].
Proof.
  split.
  - apply (proj1 (CommitFamilyEditLog_commits store1 world1 "g" edit7)).
    vm_compute. reflexivity.
  - destruct (proj2 (CommitFamilyEditLog_commits store1 world1 "f" edit7)
                head1 world2)
      as (journal & record & installed & vs' & _ & _ & _ & _ & _ & Hc & Hget & _
          & _ & _ & Hcur & _ & Hprev & _).
    + vm_compute. reflexivity.
    + vm_compute. reflexivity.
    + unfold store2. rewrite Hc. cbn [fst snd]. split; [reflexivity|].
      exists installed. split; [exact Hget|]. split.
      * rewrite Hcur. vm_compute. reflexivity.
      * rewrite Hprev. vm_compute. reflexivity.
Defined.

Lemma CommitFamilyEditLog_persists_first_witness :
  CommitFamilyEditLog store1 world1_failing "f" edit7
  = (Err ErrWrite, store1, mkWorld (files world1) (trace world1) [], committed7)
  ∧ GetFamilyVersion
      (CommitFamilyEditLog store1 world1_failing "f" edit7).1.1.2 "f"
    = Some head1.
Proof.
  apply (proj1 (CommitFamilyEditLog_persists_first store1 world1_failing "f" edit7)).
  - vm_compute. reflexivity.
  - vm_compute. reflexivity.
Defined.

Lemma initJournal_snapshot_before_current_witness :
  initJournal store0 world0 = (Nil, store1, world1)
  ∧ trace world1
    = [EvCreate "db/MANIFEST-000001";
       EvAppend "db/MANIFEST-000001" [Byte.x02; Byte.x00];
       EvSync "db/MANIFEST-000001";
       EvAppend "db/MANIFEST-000001" [Byte.x01; Byte.x01; Byte.x03; Byte.x04];
       EvSync "db/MANIFEST-000001";
       EvWriteFile "db/CURRENT.TMP" "MANIFEST-000001";
       EvRename "db/CURRENT.TMP" "db/CURRENT"]
  ∧ manifest store1 = Some "db/MANIFEST-000001".
Proof.
  assert (Hinit : initJournal store0 world0 = (Nil, store1, world1))
    by (vm_compute; reflexivity).
  destruct (initJournal_snapshot_before_current store0 store1 world0 world1 Nil
              [mkEditLog 1 []; mkEditLog StoreFamilyID [LogNextFileNumber 2]])
    as (_ & evs & Htr & _ & Hfull & [(_ & Hman & Hswap & _)|(Hne & _)]).
  - reflexivity.
  - vm_compute. reflexivity.
  - exact Hinit.
  - split; [exact Hinit|]. split; [|exact Hman].
    rewrite Htr, (Hfull Hswap). vm_compute. reflexivity.
  - destruct Hne. reflexivity.
Defined.

(** C4, as stated, fails when two families were registered under one
    id: both are registered and the first one holds the file 7, but the
    snapshot has one family edit log, that of the second family, and no
    [NewFile] edit for the file. *)
Lemma createSnapshot_skips_family :
  (∃ head, GetFamilyVersion twins2 "a" = Some head
           ∧ levels (current head) = [[file7]; []; []])
  ∧ is_Some (GetFamilyVersion twins2 "b")
  ∧ createSnapshot twins2
    = Some [mkEditLog 1 []; mkEditLog StoreFamilyID [LogNextFileNumber 2]].
Proof.
  split; [|split].
  - eexists. split; vm_compute; reflexivity.
  - eexists. vm_compute. reflexivity.
  - vm_compute. reflexivity.
Qed.

(** C5, as stated, fails on the sync: the events of a [setCurrent] that
    returns nil are the write of the temporary file and the rename, with
    no sync of the temporary file. *)
Lemma setCurrent_does_not_sync :
  (setCurrent store0 "MANIFEST-000001" world0).1 = Nil
  ∧ trace (setCurrent store0 "MANIFEST-000001" world0).2
    = [EvWriteFile "db/CURRENT.TMP" "MANIFEST-000001";
       EvRename "db/CURRENT.TMP" "db/CURRENT"]
  ∧ EvSync "db/CURRENT.TMP" ∉ trace (setCurrent store0 "MANIFEST-000001" world0).2.
Proof.
  assert (Htr : trace (setCurrent store0 "MANIFEST-000001" world0).2
                = [EvWriteFile "db/CURRENT.TMP" "MANIFEST-000001";
                   EvRename "db/CURRENT.TMP" "db/CURRENT"])
    by (vm_compute; reflexivity).
  split; [vm_compute; reflexivity|]. split; [exact Htr|].
  rewrite Htr. intros Hin.
  apply elem_of_cons in Hin as [Hin|Hin]; [discriminate|].
  apply list_elem_of_singleton in Hin. discriminate.
Qed.


Lemma Recover_unknown_family_witness :
  ∃ failure vs',
    Recover (NewStoreVersionSet "db" 3) world2 = (Err failure, vs', world2)
    ∧ familyIDs vs' = familyIDs (NewStoreVersionSet "db" 3)
    ∧ dom (familyVersions vs') = dom (familyVersions (NewStoreVersionSet "db" 3))
    ∧ getFamilyVersion vs' 1 = None.
Proof.
  apply (Recover_unknown_family (NewStoreVersionSet "db" 3) world2
           "MANIFEST-000001"
           [Frame [Byte.x02; Byte.x00];
            Frame [Byte.x01; Byte.x01; Byte.x03; Byte.x04];
            Frame [Byte.x02; Byte.x02; Byte.x01; Byte.x00; Byte.x0e; Byte.x14;
                   Byte.x28; Byte.xc8; Byte.x01; Byte.x03; Byte.x04]]
           [Byte.x02; Byte.x00] (mkEditLog 1 [])).
  - vm_compute. reflexivity.
  - vm_compute. reflexivity.
  - apply elem_of_cons. by left.
  - vm_compute. reflexivity.
  - discriminate.
  - vm_compute. reflexivity.
Defined.



End Run.

(** ** Properties of the memory database *)

Module MemdbFacts.

Import Memdb.

Lemma land_upper (a b : Z) : 0 ≤ b → 0 ≤ Z.land a b ≤ b.
Proof.
  intros Hb. apply Z.ldiff_le; [done|].
  apply Z.bits_inj'. intros n Hn.
  rewrite Z.ldiff_spec, Z.land_spec, Z.bits_0.
  by destruct (Z.testbit a n), (Z.testbit b n).
Qed.

Section WithFields.

Context {V : Type} (merge : fieldKind → V → V → V).

Implicit Types (db : @memoryDatabase V) (ms : @metricStore V) (p : @Point V).

Lemma getOrCreateTSStore_spec (tagSet : string) ms ms' (ts : tsStore) :
  getOrCreateTSStore tagSet ms = Some (ts, ms') →
  getTagsCount ms ≤ getMaxTagsLimit ms →
  getTagsCount ms' ≤ getMaxTagsLimit ms'
  ∧ tsMap (mutable ms') !! tagSet = Some ts
  ∧ immutable ms' = immutable ms.
Proof.
  unfold getOrCreateTSStore.
  destruct (tsMap (mutable ms) !! tagSet) as [ts0|] eqn:Hts.
  - by intros [= <- <-].
  - case_decide as Hfull; [done|]. intros [= <- <-] _.
    unfold getTagsCount, getMaxTagsLimit in *. simpl.
    rewrite map_size_insert_None by done. rewrite lookup_insert_eq.
    split; [lia|done].
Qed.

Lemma getOrCreateTSStore_full (tagSet : string) ms :
  getOrCreateTSStore tagSet ms = None ↔
  tsMap (mutable ms) !! tagSet = None ∧ getMaxTagsLimit ms ≤ getTagsCount ms.
Proof.
  unfold getOrCreateTSStore.
  destruct (tsMap (mutable ms) !! tagSet) as [ts0|].
  - split; [done|]. by intros [? _].
  - case_decide; split; try done. by intros [_ ?].
Qed.

Lemma write_count p (interval : Z) (ts ts0 : tsStore) ms :
  tsMap (mutable ms) !! Tags p = Some ts0 →
  getTagsCount (write merge p interval ts ms) = getTagsCount ms
  ∧ getMaxTagsLimit (write merge p interval ts ms) = getMaxTagsLimit ms.
Proof.
  intros Hts. unfold write, getTagsCount, getMaxTagsLimit. simpl.
  by rewrite map_size_insert_Some.
Qed.

Lemma freeze_count (now : Z) ms :
  getTagsCount (freeze now ms) = getTagsCount ms
  ∧ getMaxTagsLimit (freeze now ms) = getMaxTagsLimit ms.
Proof.
  unfold freeze, getTagsCount, getMaxTagsLimit. simpl. split; [|done].
  rewrite map_size_empty, foldr_app. simpl.
  induction (immutable ms) as [|vm vms IH]; simpl; lia.
Qed.

Lemma setMStore_withinLimits db (name : string) ms :
  withinLimits db →
  getTagsCount ms ≤ getMaxTagsLimit ms →
  withinLimits (setMStore db name ms).
Proof.
  intros Hinv Hms i shard hash ms' Hshard Hms'. unfold setMStore in Hshard.
  simpl in Hshard.
  destruct (decide (bucketIndex db (Fnv32a name) = i)) as [<-|Hi].
  - rewrite list_lookup_alter_eq in Hshard.
    destruct (mStoresList db !! bucketIndex db (Fnv32a name)) as [shard0|] eqn:Hs0;
      [|done].
    injection Hshard as <-.
    destruct (decide (Fnv32a name = hash)) as [<-|Hh].
    + rewrite lookup_insert_eq in Hms'. by injection Hms' as <-.
    + rewrite lookup_insert_ne in Hms' by done. by eapply Hinv.
  - rewrite list_lookup_alter_ne in Hshard by done. by eapply Hinv.
Qed.

Lemma getMStore_Some db (name : string) ms :
  getMStore db name = Some ms →
  ∃ shard,
    mStoresList db !! bucketIndex db (Fnv32a name) = Some shard
    ∧ shard !! Fnv32a name = Some ms.
Proof.
  unfold getMStore.
  destruct (mStoresList db !! bucketIndex db (Fnv32a name)) as [shard|]; [|done].
  simpl. intros Hms. by exists shard.
Qed.

Lemma Write_withinLimits (now : Z) (point : option Point) db :
  0 ≤ defaultMaxTagsLimit db →
  withinLimits db →
  withinLimits (Write merge now point db).2
  ∧ defaultMaxTagsLimit (Write merge now point db).2 = defaultMaxTagsLimit db
  ∧ length (mStoresList (Write merge now point db).2) = length (mStoresList db).
Proof.
  intros Hdef Hinv. unfold Write.
  destruct point as [p|]; [|done].
  destruct (Fields p) as [|f fs]; [done|].
  destruct (mStoresList db !! bucketIndex db (Fnv32a (Name p))) as [shard|] eqn:Hs;
    [|done].
  set (ms := default (newMetricStore now (defaultMaxTagsLimit db))
               (shard !! Fnv32a (Name p))).
  assert (Hms : getTagsCount ms ≤ getMaxTagsLimit ms).
  { subst ms. destruct (shard !! Fnv32a (Name p)) as [ms0|] eqn:Hms0; simpl.
    - by eapply Hinv.
    - unfold getTagsCount, getMaxTagsLimit. simpl. rewrite map_size_empty. lia. }
  destruct (getOrCreateTSStore (Tags p) ms) as [[ts ms']|] eqn:Hget; simpl.
  - destruct (getOrCreateTSStore_spec _ _ _ _ Hget Hms) as (Hms' & Hts & _).
    destruct (write_count p (familyInterval db) ts ts ms' Hts) as [Hc Hl].
    split; [|split; [done|by rewrite length_alter]].
    apply setMStore_withinLimits; [done|]. by rewrite Hc, Hl.
  - split; [|split; [done|by rewrite length_alter]].
    by apply setMStore_withinLimits.
Qed.

Lemma ResetMetricStore_withinLimits (now freezeInterval : Z) (name : string) db :
  withinLimits db →
  withinLimits (ResetMetricStore now freezeInterval name db).2
  ∧ defaultMaxTagsLimit (ResetMetricStore now freezeInterval name db).2
    = defaultMaxTagsLimit db
  ∧ length (mStoresList (ResetMetricStore now freezeInterval name db).2)
    = length (mStoresList db).
Proof.
  intros Hinv. unfold ResetMetricStore.
  destruct (getMStore db name) as [ms|] eqn:Hms; [|done].
  case_decide; [|done]. simpl.
  split; [|split; [done|by rewrite length_alter]].
  apply setMStore_withinLimits; [done|].
  destruct (freeze_count now ms) as [-> ->].
  apply getMStore_Some in Hms as (shard & Hshard & Hms). by eapply Hinv.
Qed.

Lemma run_withinLimits (calls : list call) :
  ∀ db,
    0 ≤ defaultMaxTagsLimit db →
    withinLimits db →
    withinLimits (run merge calls db)
    ∧ defaultMaxTagsLimit (run merge calls db) = defaultMaxTagsLimit db
    ∧ length (mStoresList (run merge calls db)) = length (mStoresList db).
Proof.
  unfold run. induction calls as [|c calls IH]; intros db Hdef Hinv; simpl; [done|].
  destruct c as [now point|now freezeInterval name]; simpl.
  - destruct (Write_withinLimits now point db Hdef Hinv) as (Hinv' & Hdef' & Hlen').
    destruct (IH (Write merge now point db).2) as (H1 & H2 & H3);
      [by rewrite Hdef'|done|].
    split; [done|]. split; [by rewrite H2|by rewrite H3].
  - destruct (ResetMetricStore_withinLimits now freezeInterval name db Hinv)
      as (Hinv' & Hdef' & Hlen').
    destruct (IH (ResetMetricStore now freezeInterval name db).2)
      as (H1 & H2 & H3); [by rewrite Hdef'|done|].
    split; [done|]. split; [by rewrite H2|by rewrite H3].
Qed.

Lemma bucketIndex_setMStore db (name : string) ms (hash : Z) :
  bucketIndex (setMStore db name ms) hash = bucketIndex db hash.
Proof. unfold bucketIndex, setMStore. simpl. by rewrite length_alter. Qed.

Lemma getMStore_setMStore db (name name' : string) ms (shard : gmap Z metricStore) :
  mStoresList db !! bucketIndex db (Fnv32a name) = Some shard →
  getMStore (setMStore db name ms) name'
  = if decide (Fnv32a name = Fnv32a name') then Some ms else getMStore db name'.
Proof.
  intros Hshard. unfold getMStore. rewrite bucketIndex_setMStore.
  unfold setMStore at 1. simpl. case_decide as Hh.
  - rewrite <- Hh. rewrite list_lookup_alter_eq, Hshard. simpl.
    apply lookup_insert_eq.
  - destruct (decide (bucketIndex db (Fnv32a name) = bucketIndex db (Fnv32a name')))
      as [Hi|Hi].
    + rewrite <- Hi. rewrite list_lookup_alter_eq, Hshard. simpl.
      by rewrite lookup_insert_ne.
    + by rewrite list_lookup_alter_ne.
Qed.

Lemma bucket_exists db (hash : Z) :
  (0 < length (mStoresList db))%nat →
  is_Some (mStoresList db !! bucketIndex db hash).
Proof.
  intros Hlen. apply lookup_lt_is_Some. unfold bucketIndex.
  pose proof (land_upper hash (Z.of_nat (length (mStoresList db)) - 1)). lia.
Qed.

(** C8: after any sequence of writes and resets on a new memory
    database, every metric holds no more tag-sets, over its mutable and
    its immutable maps, than its limit; a write that needs a new time
    series store for a metric at its limit returns TooManyTags; and a
    write that returns TooManyTags leaves the time series of every
    metric, with their fields, as they were. *)
Theorem Write_within_limit (shards : nat) (limit interval : Z) (calls : list call) :
  (0 < shards)%nat →
  0 ≤ limit →
  let db := run merge calls (newMemoryDatabase shards limit interval) in
  (∀ name,
     CountTags db name ≤ tagsHeld db name
     ∧ tagsHeld db name ≤ effectiveLimit db name)
  ∧ (∀ now p,
       Fields p ≠ [] → wouldBreach db p →
       (Write merge now (Some p) db).1 = Some (Some ErrTooManyTags))
  ∧ (∀ now point,
       (Write merge now point db).1 = Some (Some ErrTooManyTags) →
       ∀ name,
         series (Write merge now point db).2 name = series db name
         ∧ tagsHeld (Write merge now point db).2 name = tagsHeld db name).
Proof.
  intros Hshards Hlimit db.
  destruct (run_withinLimits calls (newMemoryDatabase shards limit interval))
    as (Hinv & Hdef & Hlen).
  { done. }
  { intros i shard hash ms Hshard Hms. simpl in Hshard.
    apply lookup_replicate in Hshard as [-> _]. by rewrite lookup_empty in Hms. }
  fold db in Hinv, Hdef, Hlen. simpl in Hdef, Hlen.
  rewrite length_replicate in Hlen.
  split; [|split].
  - intros name. unfold CountTags, tagsHeld, effectiveLimit.
    destruct (getMStore db name) as [ms|] eqn:Hms.
    + split; [lia|]. apply getMStore_Some in Hms as (shard & Hshard & Hms).
      by eapply Hinv.
    + lia.
  - intros now p Hfields [Hnew Hfull].
    destruct (bucket_exists db (Fnv32a (Name p))) as [shard Hshard]; [lia|].
    unfold series, effectiveLimit, tagsHeld, getMStore in Hnew, Hfull.
    rewrite Hshard in Hnew, Hfull. simpl in Hnew, Hfull.
    unfold Write. destruct (Fields p); [done|]. rewrite Hshard.
    set (ms := default (newMetricStore now (defaultMaxTagsLimit db))
                 (shard !! Fnv32a (Name p))).
    assert (Hnone : getOrCreateTSStore (Tags p) ms = None).
    { apply getOrCreateTSStore_full. subst ms.
      destruct (shard !! Fnv32a (Name p)) as [ms0|]; simpl; [done|].
      split; [done|]. unfold getMaxTagsLimit, getTagsCount in *. simpl.
      rewrite map_size_empty. simpl. lia. }
    by rewrite Hnone.
  - intros now point Hres name. unfold Write in *.
    destruct point as [p|]; [|done].
    destruct (Fields p); [done|].
    destruct (mStoresList db !! bucketIndex db (Fnv32a (Name p))) as [shard|] eqn:Hs;
      [|done].
    set (ms := default (newMetricStore now (defaultMaxTagsLimit db))
                 (shard !! Fnv32a (Name p))) in *.
    destruct (getOrCreateTSStore (Tags p) ms) as [[ts ms']|]; [done|]. simpl.
    unfold series, tagsHeld.
    rewrite (getMStore_setMStore db (Name p) name ms shard Hs).
    case_decide as Hh; [|done].
    unfold getMStore. rewrite <- Hh, Hs. simpl. subst ms.
    destruct (shard !! Fnv32a (Name p)) as [ms0|]; simpl; [done|].
    unfold getTagsCount. simpl. by rewrite map_size_empty.
Qed.

End WithFields.

Lemma Write_within_limit_witness :
  let db := run sumMerge twoTags (newMemoryDatabase 4 2 86400000) in
  CountTags db "cpu.load" = 2
  ∧ effectiveLimit db "cpu.load" = 2
  ∧ (Write sumMerge 3 (Some (cpu "host=c")) db).1 = Some (Some ErrTooManyTags)
  ∧ series (Write sumMerge 3 (Some (cpu "host=c")) db).2 "cpu.load"
    = series db "cpu.load".
Proof.
  intros db.
  destruct (Write_within_limit sumMerge 4 2 86400000 twoTags) as (_ & Hfull & Hsame);
    [lia|lia|].
  fold db in Hfull, Hsame.
  assert (Hres : (Write sumMerge 3 (Some (cpu "host=c")) db).1
                 = Some (Some ErrTooManyTags)).
  { apply Hfull; [discriminate|]. split; vm_compute; [reflexivity|discriminate]. }
  split; [vm_compute; reflexivity|]. split; [vm_compute; reflexivity|].
  split; [exact Hres|]. by apply Hsame.
Defined.

End MemdbFacts.

(** ** Further properties of the version set *)

(** *** The journal writer *)

(** X1: [persistEditLogs] stops at the first failure.  Whatever the
    outcome, the journal holds afterwards the frames of the first [k]
    edit logs behind what it held, in order; on nil these are all of
    them, on an encode or a write error the [k]-th edit log (from 0) is
    the one that failed and nothing of it is in the journal, and on a
    sync error the last of the [k] frames is the one whose sync failed.
    No other outcome occurs on a writer that is set. *)
Theorem persistEditLogs_writes_prefix `{EditLogCodec} (journal : BufioWriter)
    (editLogs : list EditLog) :
  ∀ w o w',
    persistEditLogs (Some journal) editLogs w = (o, w') →
    ∃ k : nat,
      (k ≤ length editLogs)%nat
      ∧ journalOf w' journal
        = journalOf w journal ++ persistFrames (take k editLogs)
      ∧ Forall (λ el, is_Some (marshal el)) (take k editLogs)
      ∧ match o with
        | Nil => k = length editLogs
        | Err ErrEncode => ∃ el, editLogs !! k = Some el ∧ marshal el = None
        | Err ErrWrite => ∃ el, editLogs !! k = Some el ∧ is_Some (marshal el)
        | Err ErrSync => (0 < k)%nat
        | _ => False
        end.
Proof.
  induction editLogs as [|el rest IH]; intros w o w' Hp; simpl in Hp.
  - injection Hp as <- <-. exists 0%nat. simpl. rewrite app_nil_r.
    split; [lia|]. by split.
  - destruct (marshal el) as [v|] eqn:Hm.
    2:{ injection Hp as <- <-. exists 0%nat. simpl. rewrite app_nil_r.
        split; [lia|]. split; [done|]. split; [done|]. by exists el. }
    destruct (writerWrite journal v w) as [written w1] eqn:Hw.
    apply writerWrite_spec in Hw. destruct written.
    2:{ destruct Hw as [Hf _]. injection Hp as <- <-. exists 0%nat. simpl.
        rewrite app_nil_r. unfold journalOf. rewrite Hf.
        split; [lia|]. split; [done|]. split; [done|].
        exists el. split; [done|by eexists]. }
    destruct Hw as [_ Hf].
    destruct (writerSync journal w1) as [synced w2] eqn:Hs.
    apply writerSync_spec in Hs as [Hf2 _].
    assert (Hj : journalOf w2 journal = journalOf w journal ++ [Frame v]).
    { unfold journalOf at 1. by rewrite Hf2, Hf, lookup_insert_eq. }
    destruct synced.
    + destruct (IH _ _ _ Hp) as (k & Hk & Hjk & Hall & Ho).
      exists (S k). cbn [take length].
      rewrite (persistFrames_cons el _ v Hm).
      split; [lia|]. split; [by rewrite Hjk, Hj, <- app_assoc|].
      split; [constructor; [by eexists|done]|].
      destruct o as [|[]|]; try done; simpl in *; lia.
    + injection Hp as <- <-. exists 1%nat. cbn [take length].
      rewrite (persistFrames_cons el _ v Hm). unfold persistFrames at 1. simpl.
      split; [lia|]. split; [done|].
      split; [constructor; [by eexists|done]|lia].
Qed.

(** *** Commit *)

Lemma CommitFamilyEditLog_Nil `{EditLogCodec} (vs vs' : storeVersionSet)
    (w w' : World) (family : string) (editLog editLog' : EditLog) :
  CommitFamilyEditLog vs w family editLog = (Nil, vs', w', editLog') →
  let committed := Add editLog (NewNextFileNumber (nextFileNumber vs)) in
  ∃ head installed,
    GetFamilyVersion vs family = Some head
    ∧ persistEditLogs (manifest vs) [committed] w = (Nil, w')
    ∧ editLog' = committed
    ∧ vs' = setFamilyVersions vs (<[family := installed]> (familyVersions vs)).
Proof.
  intros Hc committed. unfold CommitFamilyEditLog in Hc.
  destruct (GetFamilyVersion vs family) as [head|]; [|done].
  fold committed in Hc.
  destruct (persistEditLogs (manifest vs) [committed] w) as [[| |] w1]; try done.
  injection Hc as <- <- <-. by eexists _, _.
Qed.

(** X2: a commit on a version set whose manifest writer is not set (no
    [Recover] before) never installs a version: for a registered family
    it panics when the edit log marshals, and returns the encode error
    when it does not; the version set and the files are as before, while
    the edit log of the caller has the next file number added. *)
Theorem CommitFamilyEditLog_without_writer `{EditLogCodec} (vs : storeVersionSet)
    (w : World) (family : string) (editLog : EditLog) (head : FamilyVersion) :
  manifest vs = None →
  GetFamilyVersion vs family = Some head →
  let committed := Add editLog (NewNextFileNumber (nextFileNumber vs)) in
  CommitFamilyEditLog vs w family editLog
  = (match marshal committed with Some _ => Panic | None => Err ErrEncode end,
     vs, w, committed).
Proof.
  intros Hman Hget committed. unfold CommitFamilyEditLog.
  rewrite Hget, Hman. fold committed. simpl.
  by destruct (marshal committed).
Qed.

(** X3: a commit, whatever its outcome, touches the committed family
    and the manifest only: every other family version, the ids, the
    store path and the writer are as before, no family is added or
    lost, and every file that is not the manifest of the writer is as
    before (CURRENT among them). *)
Theorem CommitFamilyEditLog_frame `{EditLogCodec} (vs vs' : storeVersionSet)
    (w w' : World) (family : string) (editLog editLog' : EditLog) (o : outcome) :
  CommitFamilyEditLog vs w family editLog = (o, vs', w', editLog') →
  familyIDs vs' = familyIDs vs
  ∧ manifest vs' = manifest vs
  ∧ storePath vs' = storePath vs
  ∧ dom (familyVersions vs') = dom (familyVersions vs)
  ∧ (∀ other, other ≠ family →
       GetFamilyVersion vs' other = GetFamilyVersion vs other)
  ∧ (∀ p, manifest vs ≠ Some p → files w' !! p = files w !! p).
Proof.
  unfold CommitFamilyEditLog.
  destruct (GetFamilyVersion vs family) as [head|] eqn:Hget;
    [|by intros [= <- <- <- <-]].
  set (committed := Add editLog (NewNextFileNumber (nextFileNumber vs))).
  destruct (persistEditLogs (manifest vs) [committed] w) as [po w1] eqn:Hp.
  assert (Hfiles : ∀ p, manifest vs ≠ Some p → files w1 !! p = files w !! p).
  { intros p Hne. destruct (manifest vs) as [journal|].
    - apply persistEditLogs_spec in Hp as (_ & _ & _ & Hother & _).
      apply Hother. congruence.
    - simpl in Hp. by destruct (marshal committed); injection Hp as <- <-. }
  destruct po; intros [= <- <- <- <-]; try done.
  simpl. repeat split; try done.
  - apply dom_insert_lookup_L. by eexists.
  - intros other Hne. unfold GetFamilyVersion. simpl.
    by rewrite lookup_insert_ne.
Qed.

(** *** Registration *)

(** X4: [CreateFamilyVersion] never drops or replaces a family version:
    every name that was registered finds the same family version
    afterwards, and every other id keeps its name.  For a new name the
    id is bound to it, also when the id was bound to another name
    before: the family formerly found for the id is then found by its
    name only.  For a name that is registered the id is ignored. *)
Theorem CreateFamilyVersion_keeps_families (vs : storeVersionSet) (family : string)
    (id : Z) :
  let vs' := (CreateFamilyVersion vs family id).2 in
  (∀ name fv,
     GetFamilyVersion vs name = Some fv → GetFamilyVersion vs' name = Some fv)
  ∧ (∀ id', id' ≠ id → familyIDs vs' !! id' = familyIDs vs !! id')
  ∧ (GetFamilyVersion vs family = None →
     familyIDs vs' !! id = Some family
     ∧ getFamilyVersion vs' id = Some (CreateFamilyVersion vs family id).1)
  ∧ (is_Some (GetFamilyVersion vs family) → familyIDs vs' !! id = familyIDs vs !! id)
  ∧ nextFileNumber vs' = nextFileNumber vs
  ∧ manifestFileNumber vs' = manifestFileNumber vs
  ∧ manifest vs' = manifest vs.
Proof.
  unfold CreateFamilyVersion.
  destruct (GetFamilyVersion vs family) as [existing|] eqn:Hget; simpl.
  - repeat split; done.
  - split; [|split; [|split; [|split; [|done]]]].
    + intros name fv Hname. unfold GetFamilyVersion in *. simpl.
      rewrite lookup_insert_ne; [done|]. intros <-. congruence.
    + intros id' Hne. by rewrite lookup_insert_ne.
    + intros _. split; [apply lookup_insert_eq|].
      unfold getFamilyVersion. simpl. rewrite lookup_insert_eq.
      apply lookup_insert_eq.
    + by intros [? ?].
Qed.

(** *** Version sets that a process reaches *)

(** X5: on every version set that a process reaches from
    [NewStoreVersionSet] by the methods of the interface, each id of
    [familyIDs] names a family of [familyVersions]: [getFamilyVersion]
    finds a family version exactly for the ids that are bound, and the
    snapshot finds a family version for every id.  [Recover] on such a
    version set panics in one case only, the deferred close of a reader
    that did not open: exactly when CURRENT names a manifest that cannot
    be opened. *)
Theorem reachable_registered `{EditLogCodec} (vs : storeVersionSet) :
  reachable vs →
  registered vs
  ∧ (∀ id, is_Some (getFamilyVersion vs id) ↔ is_Some (familyIDs vs !! id))
  ∧ is_Some (createSnapshot vs)
  ∧ ∀ w, (Recover vs w).1.1 = Panic ↔
         ∃ manifestFileName,
           readManifestFileName vs w = Some manifestFileName
           ∧ NewBufioReader (getManifestFilePath vs manifestFileName) w = None.
Proof.
  intros Hreach.
  assert (Hreg : registered vs).
  { induction Hreach as [path n|vs family id _ IH|vs _ IH|vs _ IH
                         |vs w family el _ IH|vs w _ IH].
    - apply registered_new.
    - by apply registered_create.
    - exact IH.
    - exact IH.
    - by apply registered_commit.
    - by apply registered_Recover. }
  split; [done|]. split; [|split; [by apply createSnapshot_registered|]].
  - intros id. unfold getFamilyVersion.
    destruct (familyIDs vs !! id) as [name|] eqn:Hid.
    + split; [by eexists|]. intros _. by eapply Hreg.
    + split; by intros [? ?].
  - intros w. unfold Recover.
    change (Join (storePath vs) current_name) with (getCurrentPath vs).
    destruct (Exist (getCurrentPath vs) w) eqn:Hexist.
    + destruct (recover vs w) as [o1 vs1] eqn:Hrec.
      apply recover_spec in Hrec as (Hpanic & Hids & Hdom & _).
      destruct o1; simpl; [|by rewrite <- Hpanic|by rewrite <- Hpanic].
      destruct (initJournal vs1 w) as [[o2 vs2] w2] eqn:Hinit. simpl.
      assert (Hnp : o2 ≠ Panic).
      { eapply initJournal_no_panic; [|exact Hinit]. by eapply registered_keeps. }
      rewrite <- Hpanic. split; [done|discriminate].
    + destruct (initJournal vs w) as [[o2 vs2] w2] eqn:Hinit. simpl.
      assert (Hnp : o2 ≠ Panic) by by eapply initJournal_no_panic.
      split; [done|]. intros (name & Hname & _).
      apply readManifestFileName_Exist in Hname. congruence.
Qed.

(** *** Recovery, once more *)

Lemma recover_manifest `{EditLogCodec} (vs vs1 : storeVersionSet) (w : World)
    (o : outcome) :
  recover vs w = (o, vs1) → manifest vs1 = manifest vs ∧ storePath vs1 = storePath vs.
Proof. intros Hr. by apply recover_spec in Hr as (_ & _ & _ & ? & ? & _). Qed.

(** X6: [Recover] on a version set whose manifest writer is set writes
    nothing: the files and their history are as before whatever the
    outcome, no manifest is created and CURRENT is not touched; the
    writer stays the one that was set.  Only the replay happens again. *)
Theorem Recover_with_writer `{EditLogCodec} (vs : storeVersionSet) (w : World)
    (journal : BufioWriter) :
  manifest vs = Some journal →
  (Recover vs w).2 = w
  ∧ manifest (Recover vs w).1.2 = Some journal
  ∧ (Exist (getCurrentPath vs) w = false → Recover vs w = (Nil, vs, w)).
Proof.
  intros Hman. unfold Recover.
  change (Join (storePath vs) current_name) with (getCurrentPath vs).
  destruct (Exist (getCurrentPath vs) w).
  - destruct (recover vs w) as [o1 vs1] eqn:Hrec.
    apply recover_manifest in Hrec as [Hman1 _]. rewrite Hman in Hman1.
    destruct o1; simpl; try done.
    unfold initJournal. rewrite Hman1. by simpl.
  - unfold initJournal. rewrite Hman. simpl. by split; [|split].
Qed.

(** X7: the loop of [recover] over the frames of a manifest composes:
    replaying the frames of a manifest and of what was appended to it is
    replaying the first and then, when that returned nil, the second; a
    failure ends the loop. *)
Theorem recoverFrames_app `{EditLogCodec} (first second : list frame)
    (vs : storeVersionSet) :
  recoverFrames vs (first ++ second)
  = match recoverFrames vs first with
    | (Nil, vs1) => recoverFrames vs1 second
    | failure => failure
    end.
Proof.
  revert vs. induction first as [|f rest IH]; intros vs; simpl; [done|].
  destruct (recoverFrame vs f) as [[| |] vs1]; [apply IH|done|done].
Qed.

Lemma recoverFrames_prefix `{EditLogCodec} (frames : list frame) :
  ∀ vs o vs',
    recoverFrames vs frames = (o, vs') →
    ∃ (k : nat) editLogs,
      decodeFrames (take k frames) = Some editLogs
      ∧ vs' = replay editLogs vs
      ∧ (o = Nil ∧ k = length frames
         ∨ o ≠ Nil ∧ ∃ f, frames !! k = Some f ∧ recoverFrame vs' f = (o, vs')).
Proof.
  induction frames as [|f rest IH]; intros vs o vs' Hr; simpl in Hr.
  - injection Hr as <- <-. exists 0%nat, []. split; [done|]. split; [done|].
    by left.
  - destruct (recoverFrame vs f) as [o1 vs1] eqn:Hf.
    pose proof Hf as Hspec.
    apply recoverFrame_spec in Hspec as (_ & _ & _ & _ & _ & Hnil & Hfail).
    destruct o1.
    + destruct (Hnil eq_refl) as (el & Hdec & ->).
      destruct (IH _ _ _ Hr) as (k & els & Hdecs & -> & Hcases).
      exists (S k), (el :: els). cbn [take]. split.
      { apply mapM_Some_2. constructor; [done|]. by apply mapM_Some_1. }
      split; [done|].
      destruct Hcases as [[-> ->]|[Hne Hk]]; [by left|by right].
    + injection Hr as <- <-. rewrite (Hfail ltac:(done)) in *.
      exists 0%nat, []. split; [done|]. split; [done|]. right.
      split; [done|]. by exists f.
    + injection Hr as <- <-. rewrite (Hfail ltac:(done)) in *.
      exists 0%nat, []. split; [done|]. split; [done|]. right.
      split; [done|]. by exists f.
Qed.

(** X8: a recovery is not undone when it fails.  When the replay of the
    manifest stops with an error, [Recover] returns this error, writes
    nothing and does not set the manifest writer; the in-memory state
    is the replay of the edit logs of the frames before the failing
    one, which stay applied. *)
Theorem Recover_failure_keeps_prefix `{EditLogCodec} (vs vs1 : storeVersionSet)
    (w : World) (failure : error) (manifestFileName : string) (frames : list frame) :
  readManifestFileName vs w = Some manifestFileName →
  NewBufioReader (getManifestFilePath vs manifestFileName) w = Some frames →
  recoverFrames vs frames = (Err failure, vs1) →
  Recover vs w = (Err failure, vs1, w)
  ∧ manifest vs1 = manifest vs
  ∧ ∃ (k : nat) editLogs f,
      decodeFrames (take k frames) = Some editLogs
      ∧ vs1 = replay editLogs vs
      ∧ frames !! k = Some f
      ∧ recoverFrame vs1 f = (Err failure, vs1).
Proof.
  intros Hname Hframes Hrec.
  assert (Hrecover : recover vs w = (Err failure, vs1)).
  { unfold recover. by rewrite Hname, Hframes. }
  assert (Hexist : Exist (Join (storePath vs) current_name) w = true).
  { unfold Exist. apply bool_decide_eq_true.
    unfold readManifestFileName, ReadFile, getCurrentPath in Hname.
    destruct (files w !! Join (storePath vs) current_name); [by eexists|done]. }
  split; [|split].
  - unfold Recover. by rewrite Hexist, Hrecover.
  - by apply recover_manifest in Hrecover as [? _].
  - destruct (recoverFrames_prefix _ _ _ _ Hrec)
      as (k & els & Hdec & -> & [[? _]|[_ (f & Hk & Hf)]]); [done|].
    by exists k, els, f.
Qed.

(** *** CURRENT and its temporary file *)

(** X9: [setCurrent] has three outcomes.  On nil CURRENT holds the new
    name and the temporary file is gone; when the rename fails the
    temporary file is left behind with the new name in it and CURRENT
    is what it was; when the write of the temporary file fails the
    rename is not tried and CURRENT is what it was. *)
Theorem setCurrent_outcomes (vs : storeVersionSet) (manifestFile : string)
    (w w' : World) (o : outcome) :
  setCurrent vs manifestFile w = (o, w') →
  o = Nil
  ∧ files w' !! getCurrentPath vs = Some (Text manifestFile)
  ∧ files w' !! tmpPath vs = None
  ∨ o = Err ErrRename
    ∧ files w' !! tmpPath vs = Some (Text manifestFile)
    ∧ files w' !! getCurrentPath vs = files w !! getCurrentPath vs
    ∧ trace w' = trace w ++ [EvWriteFile (tmpPath vs) manifestFile]
  ∨ o = Err ErrWriteTmp
    ∧ files w' !! getCurrentPath vs = files w !! getCurrentPath vs
    ∧ trace w' = trace w.
Proof.
  unfold setCurrent.
  destruct (paths_distinct vs 0) as (_ & _ & Htmp).
  destruct (WriteFile (tmpPath vs) manifestFile w) as [written w1] eqn:Hw.
  apply WriteFile_spec in Hw. destruct written.
  2:{ destruct Hw as [Hf Ht]. intros [= <- <-]. right. right.
      by rewrite Hf, Ht. }
  destruct Hw as [Ht Hf].
  destruct (Rename (tmpPath vs) (getCurrentPath vs) w1) as [renamed w2] eqn:Hr.
  apply Rename_spec in Hr. destruct renamed.
  - destruct Hr as (c & Hc & _ & Hf2). intros [= <- <-].
    rewrite Hf, lookup_insert_eq in Hc. injection Hc as <-. left.
    rewrite Hf2. split; [done|]. split; [apply lookup_insert_eq|].
    rewrite lookup_insert_ne by done. apply lookup_delete_eq.
  - destruct Hr as [Hf2 Ht2]. intros [= <- <-]. right. left.
    rewrite Hf2, Hf, Ht2, Ht. split; [done|].
    split; [apply lookup_insert_eq|]. split; [|done].
    by rewrite lookup_insert_ne.
Qed.

(** *** The snapshot, once more *)

Lemma recordedFiles_newFiles (level : Z) (fs : list FileMeta) :
  omap (λ l, match l with
             | LogNewFile _ file => Some (fileNumber file)
             | _ => None
             end) ((λ file, CreateNewFile level file) <$> fs)
  = fileNumber <$> fs.
Proof. induction fs as [|f fs IH]; simpl; [done|]. f_equal. apply IH. Qed.

Lemma recordedFiles_levelEdits (lvls : list (list FileMeta)) :
  ∀ h : nat → Z,
    omap (λ l, match l with
               | LogNewFile _ file => Some (fileNumber file)
               | _ => None
               end)
      (mjoin (imap (λ i fs, (λ file, CreateNewFile (h i) file) <$> fs) lvls))
    = fileNumber <$> mjoin lvls.
Proof.
  induction lvls as [|fs lvls IH]; intros h; simpl; [done|].
  rewrite omap_app, fmap_app, recordedFiles_newFiles. f_equal.
  apply (IH (h ∘ S)).
Qed.

Lemma levelEdits_length (lvls : list (list FileMeta)) :
  ∀ h : nat → Z,
    length (mjoin (imap (λ i fs, (λ file, CreateNewFile (h i) file) <$> fs) lvls))
    = length (mjoin lvls).
Proof.
  induction lvls as [|fs lvls IH]; intros h; simpl; [done|].
  rewrite !length_app, length_fmap. f_equal. apply (IH (h ∘ S)).
Qed.

(** X10: the edit log that [createFamilySnapshot] makes for a family
    carries the id it is given and records the files of the head
    version, level by level and in the order of each level: as many
    edits as the head has files, whose file numbers are those of the
    levels in a row; a head without files gives an edit log without
    edits. *)
Theorem createFamilySnapshot_records_head (id : Z) (fv : FamilyVersion) :
  familyID (createFamilySnapshot id fv) = id
  ∧ recordedFiles (createFamilySnapshot id fv)
    = fileNumber <$> mjoin (levels (current fv))
  ∧ length (logs (createFamilySnapshot id fv))
    = length (mjoin (levels (current fv)))
  ∧ (∀ l, l ∈ logs (createFamilySnapshot id fv) →
          ∃ (level : nat) file,
            l = LogNewFile (Z.of_nat level) file
            ∧ (level < length (levels (current fv)))%nat).
Proof.
  rewrite createFamilySnapshot_logs. simpl. split; [done|]. split; [|split].
  - unfold recordedFiles, levelEdits. simpl.
    apply (recordedFiles_levelEdits _ (λ i, Z.of_nat i)).
  - apply (levelEdits_length _ (λ i, Z.of_nat i)).
  - intros l Hl. apply levelEdits_elem in Hl as (level & fs & file & Hlvl & _ & ->).
    exists level, file. split; [done|]. by eapply lookup_lt_Some.
Qed.

Lemma familySnapshotOf_ids (vs : storeVersionSet) (entries : list (Z * string))
    (editLogs : list EditLog) :
  Forall2 (familySnapshotOf vs) entries editLogs →
  familyID <$> editLogs = fst <$> entries.
Proof.
  induction 1 as [|entry el entries els (fv & _ & Hid & _) _ IH]; [done|].
  rewrite !fmap_cons. by rewrite Hid, IH.
Qed.

(** X11: in a snapshot no two family edit logs carry the same family
    id, every family edit log carries an id of [familyIDs], and the store
    level edit log, with the next file number as its only edit, is the
    last one: a replay of the snapshot sets the file numbers after it
    has seen every family edit log. *)
Theorem createSnapshot_ids (vs : storeVersionSet) (editLogs : list EditLog) :
  createSnapshot vs = Some editLogs →
  ∃ familyLogs,
    editLogs = familyLogs ++ [createStoreSnapshot vs]
    ∧ NoDup (familyID <$> familyLogs)
    ∧ (∀ el, el ∈ familyLogs → is_Some (familyIDs vs !! familyID el))
    ∧ logs (createStoreSnapshot vs) = [LogNextFileNumber (nextFileNumber vs)]
    ∧ familyID (createStoreSnapshot vs) = StoreFamilyID.
Proof.
  intros Hsnap.
  destruct (createSnapshot_spec vs editLogs Hsnap) as (familyLogs & -> & Hall).
  exists familyLogs. split; [done|].
  pose proof (familySnapshotOf_ids _ _ _ Hall) as Hids.
  split; [|split; [|done]].
  - rewrite Hids. apply NoDup_fst_map_to_list.
  - intros el Hel.
    assert (Hin : familyID el ∈ fst <$> map_to_list (familyIDs vs)).
    { rewrite <- Hids. by apply list_elem_of_fmap_2. }
    apply list_elem_of_fmap in Hin as ([id name] & Heq & Hin). simpl in Heq.
    apply elem_of_map_to_list in Hin. rewrite Heq. by eexists.
Qed.

(** *** The live manifest *)

Lemma initJournal_live `{EditLogCodec} (vs vs' : storeVersionSet) (w w' : World) :
  manifest vs = None →
  initJournal vs w = (Nil, vs', w') →
  live vs' w'.
Proof.
  intros Hman Hinit.
  destruct (initJournal_Nil _ _ _ _ Hman Hinit) as [snapshot Hsnap].
  destruct (initJournal_spec _ _ _ _ _ _ Hman Hsnap Hinit)
    as (evs & _ & _ & [(_ & _ & -> & _ & Hcur)|(Hne & _)]); [|done].
  unfold live, ReadFile. simpl.
  change (getCurrentPath (setManifest vs _)) with (getCurrentPath vs).
  by rewrite Hcur.
Qed.

(** X12: after a [Recover] that returns nil on a version set whose
    manifest writer was not set, the writer appends to the manifest that
    CURRENT names, and this manifest is the one of the manifest file
    number: what a commit persists from then on is what the next
    recovery reads. *)
Theorem Recover_opens_live_manifest `{EditLogCodec} (vs vs' : storeVersionSet)
    (w w' : World) :
  manifest vs = None →
  Recover vs w = (Nil, vs', w') →
  live vs' w'.
Proof.
  intros Hman Hr. unfold Recover in Hr.
  destruct (Exist _ w).
  - destruct (recover vs w) as [o1 vs1] eqn:Hrec.
    apply recover_manifest in Hrec as [Hman1 _]. rewrite Hman in Hman1.
    destruct o1; [|done|done]. by eapply initJournal_live.
  - by eapply initJournal_live.
Qed.

(** X13: a commit that returns nil on a live manifest adds its edit log,
    with the next file number as last edit, at the end of the edit logs
    that a recovery reads from the manifest, provided the edit log
    unmarshals from what it was marshalled to; the manifest stays
    live. *)
Theorem CommitFamilyEditLog_extends_manifest `{EditLogCodec}
    (vs vs' : storeVersionSet) (w w' : World) (family : string)
    (editLog committed : EditLog) (persisted : list EditLog) :
  live vs w →
  manifestLogs vs w = Some persisted →
  CommitFamilyEditLog vs w family editLog = (Nil, vs', w', committed) →
  (∀ record, marshal committed = Some record → unmarshal record = Some committed) →
  committed = Add editLog (NewNextFileNumber (nextFileNumber vs))
  ∧ live vs' w'
  ∧ manifestLogs vs' w' = Some (persisted ++ [committed]).
Proof.
  intros [Hman Hcur] Hlogs Hc Hround.
  destruct (CommitFamilyEditLog_Nil _ _ _ _ _ _ _ Hc)
    as (head & installed & Hget & Hp & -> & ->).
  split; [done|].
  set (committed := Add editLog (NewNextFileNumber (nextFileNumber vs))) in *.
  set (name := ManifestFileName (manifestFileNumber vs)) in *.
  set (journal := getManifestFilePath vs name) in *.
  rewrite Hman in Hp.
  destruct (persistEditLogs_spec journal [committed] w Nil w' Hp)
    as (evs & _ & _ & Hother & _ & Hnil).
  destruct (Hnil eq_refl) as (_ & Hall & Hj).
  apply Forall_cons in Hall as [[record Hm] _].
  unfold persistFrames in Hj. simpl in Hj. rewrite Hm in Hj. simpl in Hj.
  destruct (paths_distinct vs (manifestFileNumber vs)) as (Hmc & _ & _).
  fold name journal in Hmc.
  assert (Hcur' : ReadFile (getCurrentPath vs) w' = Some name).
  { unfold ReadFile in *. rewrite (Hother (getCurrentPath vs)); [done|].
    intros Heq. by apply Hmc. }
  unfold manifestLogs, readManifestFileName in Hlogs.
  rewrite Hcur in Hlogs. simpl in Hlogs. fold journal in Hlogs.
  destruct (NewBufioReader journal w) as [frames|] eqn:Hread; [|done].
  simpl in Hlogs.
  assert (Hjw : journalOf w journal = frames).
  { unfold NewBufioReader in Hread. unfold journalOf.
    destruct (files w !! journal) as [[s|fs]|]; congruence. }
  rewrite Hjw in Hj.
  assert (Hread' : NewBufioReader journal w' = Some (frames ++ [Frame record])).
  { unfold NewBufioReader. unfold journalOf in Hj.
    destruct (files w' !! journal) as [[s|fs]|]; [|by rewrite Hj|];
      by destruct frames. }
  split.
  - unfold live. simpl. split; [done|].
    change (getCurrentPath (setFamilyVersions vs _)) with (getCurrentPath vs).
    exact Hcur'.
  - unfold manifestLogs, readManifestFileName.
    change (getCurrentPath (setFamilyVersions vs _)) with (getCurrentPath vs).
    rewrite Hcur'. simpl.
    change (getManifestFilePath (setFamilyVersions vs _) name) with journal.
    rewrite Hread'. simpl. unfold decodeFrames in *.
    apply mapM_Some_2. apply Forall2_app; [by apply mapM_Some_1|].
    constructor; [|constructor]. simpl. by apply Hround.
Qed.

(** *** Version ids *)

Lemma newVersionID_fetch vs :
  in_int64 (versionID vs) →
  (newVersionID vs).1 = versionID vs
  ∧ versionID (newVersionID vs).2 = wrap64 (versionID vs + 1).
Proof.
  intros Hr. unfold newVersionID. simpl. split; [|done].
  replace (wrap64 (versionID vs + 1) - 1)
    with (wrap64 (versionID vs + 1) + (-1)) by lia.
  rewrite wrap64_add_l.
  replace (versionID vs + 1 + -1) with (versionID vs) by lia.
  by apply wrap64_small.
Qed.

Lemma newVersionIDs_spec (n : nat) :
  ∀ vs,
    in_int64 (versionID vs) →
    versionID vs + Z.of_nat n - 1 ≤ int64_max →
    (newVersionIDs n vs).1 = (λ i : nat, versionID vs + Z.of_nat i) <$> seq 0 n
    ∧ nextFileNumber (newVersionIDs n vs).2 = nextFileNumber vs
    ∧ manifestFileNumber (newVersionIDs n vs).2 = manifestFileNumber vs
    ∧ familyVersions (newVersionIDs n vs).2 = familyVersions vs.
Proof.
  induction n as [|n IH]; intros vs Hr Hb.
  - done.
  - destruct (newVersionID_fetch vs Hr) as [Hout Hnext].
    cbn [newVersionIDs].
    assert (Hkeep : nextFileNumber (newVersionID vs).2 = nextFileNumber vs
                    ∧ manifestFileNumber (newVersionID vs).2 = manifestFileNumber vs
                    ∧ familyVersions (newVersionID vs).2 = familyVersions vs)
      by done.
    destruct (newVersionID vs) as [id vs1] eqn:Hcall. simpl in Hout, Hnext, Hkeep.
    destruct Hkeep as (Hk1 & Hk2 & Hk3).
    destruct (newVersionIDs n vs1) as [ids vs2] eqn:Hrest.
    cbn [fst snd seq fmap list_fmap]. rewrite Z.add_0_r, fmap_seq_shift.
    destruct n as [|n'].
    + simpl in Hrest. injection Hrest as <- <-. simpl. by rewrite Hout.
    + assert (Hsmall : wrap64 (versionID vs + 1) = versionID vs + 1).
      { apply wrap64_small. unfold in_int64, int64_min, int64_max in *. lia. }
      rewrite Hsmall in Hnext.
      destruct (IH vs1) as (IH1 & IH2 & IH3 & IH4).
      { rewrite Hnext. unfold in_int64, int64_min, int64_max in *. lia. }
      { rewrite Hnext. lia. }
      rewrite Hrest in IH1, IH2, IH3, IH4. simpl in IH1, IH2, IH3, IH4.
      rewrite Hnext in IH1. rewrite IH1, IH2, IH3, IH4, Hout. done.
Qed.

(** X14: [newVersionID] hands out the value its counter had before the
    call: while the ids do not pass the largest [int64], [n] calls hand
    out [n] ids in a row, strictly increasing, a new version set
    starting at 0; the file numbers and the families are not touched, so
    that the next file number is the same before and after. *)
Theorem newVersionID_increasing (vs : storeVersionSet) (n : nat) :
  in_int64 (versionID vs) →
  versionID vs + Z.of_nat n - 1 ≤ int64_max →
  (newVersionIDs n vs).1 = (λ i : nat, versionID vs + Z.of_nat i) <$> seq 0 n
  ∧ StronglySorted Z.lt (newVersionIDs n vs).1
  ∧ (NextFileNumber (newVersionIDs n vs).2).1 = (NextFileNumber vs).1
  ∧ familyVersions (newVersionIDs n vs).2 = familyVersions vs.
Proof.
  intros Hr Hb.
  destruct (newVersionIDs_spec n vs Hr Hb) as (H1 & H2 & _ & H4).
  rewrite H1. split; [done|]. split; [apply consecutive_sorted|].
  split; [|done]. unfold NextFileNumber. simpl. by rewrite H2.
Qed.

(** ** Properties of the nodes *)

Module ModelsFacts.

Import Models.

Lemma string_snoc_inj (s t : string) (a b : Ascii.ascii) :
  s +:+ String a "" = t +:+ String b "" → s = t ∧ a = b.
Proof.
  revert t. induction s as [|c s IH]; intros [|d t] Heq;
    cbv [String.append] in Heq; fold String.append in Heq.
  - by injection Heq as ->.
  - injection Heq as _ Heq. destruct t; cbv [String.append] in Heq; discriminate.
  - injection Heq as _ Heq. destruct s; cbv [String.append] in Heq; discriminate.
  - injection Heq as -> Heq. destruct (IH t Heq) as [-> ->]. done.
Qed.

Lemma digit_inj (j k : nat) :
  (j < 10)%nat → (k < 10)%nat →
  Ascii.ascii_of_nat (48 + j) = Ascii.ascii_of_nat (48 + k) → j = k.
Proof.
  intros Hj Hk Heq. apply (f_equal Ascii.nat_of_ascii) in Heq.
  rewrite !Ascii.nat_ascii_embedding in Heq by lia. lia.
Qed.

Lemma digit_not_colon (k : nat) :
  (k < 10)%nat → Ascii.ascii_of_nat (48 + k) ≠ colon.
Proof.
  intros Hk Heq. unfold colon in Heq. apply (f_equal Ascii.nat_of_ascii) in Heq.
  rewrite !Ascii.nat_ascii_embedding in Heq by lia. lia.
Qed.

Lemma digits_S (fuel : nat) (n : Z) :
  digits (S fuel) n
  = (if n <? 10 then "" else digits fuel (n `div` 10))
    +:+ String (Ascii.ascii_of_nat (48 + Z.to_nat (n `mod` 10))) "".
Proof. reflexivity. Qed.

Lemma digits_inj (fuel : nat) :
  ∀ n m,
    0 ≤ n < 10 ^ Z.of_nat fuel → 0 ≤ m < 10 ^ Z.of_nat fuel →
    digits fuel n = digits fuel m → n = m.
Proof.
  induction fuel as [|fuel IH]; intros n m Hn Hm Heq.
  - simpl in Hn, Hm. lia.
  - rewrite Nat2Z.inj_succ, Z.pow_succ_r in Hn, Hm by lia.
    rewrite !digits_S in Heq. apply string_snoc_inj in Heq as [Hpre Hlast].
    apply digit_inj in Hlast;
      [|pose proof (Z.mod_pos_bound n 10); lia|pose proof (Z.mod_pos_bound m 10); lia].
    assert (Hmod : n `mod` 10 = m `mod` 10).
    { pose proof (Z.mod_pos_bound n 10). pose proof (Z.mod_pos_bound m 10). lia. }
    pose proof (Z.div_mod n 10). pose proof (Z.div_mod m 10).
    destruct (Z.ltb_spec n 10) as [Hn10|Hn10], (Z.ltb_spec m 10) as [Hm10|Hm10].
    + rewrite (Z.mod_small n 10), (Z.mod_small m 10) in Hmod by lia. done.
    + exfalso. destruct fuel as [|fuel']; [simpl in Hm; lia|].
      rewrite digits_S in Hpre.
      destruct (if m `div` 10 <? 10 then "" else digits fuel' ((m `div` 10) `div` 10));
        cbv [String.append] in Hpre; discriminate.
    + exfalso. destruct fuel as [|fuel']; [simpl in Hn; lia|].
      rewrite digits_S in Hpre.
      destruct (if n `div` 10 <? 10 then "" else digits fuel' ((n `div` 10) `div` 10));
        cbv [String.append] in Hpre; discriminate.
    + assert (Hdiv : n `div` 10 = m `div` 10).
      { apply IH; [| |done].
        - split; [apply Z.div_pos; lia|apply Z.div_lt_upper_bound; lia].
        - split; [apply Z.div_pos; lia|apply Z.div_lt_upper_bound; lia]. }
      lia.
Qed.

Lemma colonFree_snoc (s : string) (c : Ascii.ascii) :
  colonFree s = true → c ≠ colon → colonFree (s +:+ String c "") = true.
Proof.
  intros Hs Hc. induction s as [|d s IH];
    cbv [String.append]; fold String.append; simpl.
  - by rewrite decide_False.
  - simpl in Hs. case_decide; [done|]. by apply IH.
Qed.

Lemma digits_colonFree (fuel : nat) : ∀ n, colonFree (digits fuel n) = true.
Proof.
  induction fuel as [|fuel IH]; intros n; [done|].
  rewrite digits_S. apply colonFree_snoc.
  - by destruct (n <? 10).
  - apply digit_not_colon. pose proof (Z.mod_pos_bound n 10). lia.
Qed.

Lemma colonFree_colon (s d : string) : colonFree (s +:+ String colon d) = false.
Proof.
  induction s as [|c s IH]; cbv [String.append]; fold String.append.
  - cbn [colonFree]. by case_decide.
  - cbn [colonFree]. by case_decide.
Qed.

Lemma app_colon_inj (s1 s2 d1 d2 : string) :
  colonFree d1 = true → colonFree d2 = true →
  s1 +:+ String colon d1 = s2 +:+ String colon d2 → s1 = s2 ∧ d1 = d2.
Proof.
  intros H1 H2. revert s2. induction s1 as [|c s1 IH]; intros [|d s2] Heq;
    cbv [String.append] in Heq; fold String.append in Heq.
  - by injection Heq as ->.
  - injection Heq as _ Heq. rewrite Heq, colonFree_colon in H1. done.
  - injection Heq as _ Heq. rewrite <- Heq, colonFree_colon in H2. done.
  - injection Heq as -> Heq. destruct (IH s2 Heq) as [-> ->]. done.
Qed.

(** X15: [Node.String] tells nodes apart: two nodes with the same
    string have the same address and the same port, for ports of the
    range of [uint16], whatever the address holds (colons included). *)
Theorem NodeString_inj (a b : Node) :
  0 ≤ Port a < 65536 →
  0 ≤ Port b < 65536 →
  NodeString a = NodeString b →
  a = b.
Proof.
  intros Ha Hb Heq. unfold NodeString in Heq.
  change (":" +:+ digits 5 (Port a)) with (String colon (digits 5 (Port a))) in Heq.
  change (":" +:+ digits 5 (Port b)) with (String colon (digits 5 (Port b))) in Heq.
  apply app_colon_inj in Heq as [Hip Hport]; [|apply digits_colonFree..].
  apply digits_inj in Hport; [|simpl; lia..].
  destruct a, b. simpl in *. by subst.
Qed.

Lemma NodeString_inj_witness :
  mkNode "10.0.0.1" 9999 = mkNode ("10.0." +:+ "0.1") (9000 + 999).
Proof.
  apply NodeString_inj.
  - simpl. lia.
  - simpl. lia.
  - vm_compute. reflexivity.
Defined.

End ModelsFacts.

(** ** The further properties on the store with one family *)

Section RunFurther.

Import Scenario Cases.

#[local] Existing Instance SpecCodec.codec.

Lemma persistEditLogs_writes_prefix_witness :
  ∃ w',
    persistEditLogs (Some "j") [edit7; committed7] secondFails = (Err ErrSync, w')
    ∧ length (journalOf w' "j") = 1%nat.
Proof.
  destruct (persistEditLogs_writes_prefix "j" [edit7; committed7] secondFails
              (Err ErrSync)
              (persistEditLogs (Some "j") [edit7; committed7] secondFails).2)
    as (k & Hk & Hj & _ & Hpos).
  - vm_compute. reflexivity.
  - eexists. split; [vm_compute; reflexivity|]. vm_compute. reflexivity.
Defined.

Lemma CommitFamilyEditLog_without_writer_witness :
  CommitFamilyEditLog store0 world0 "f" edit7
  = (Panic, store0, world0, Add edit7 (NewNextFileNumber 2)).
Proof.
  rewrite (CommitFamilyEditLog_without_writer store0 world0 "f" edit7
             (newFamilyVersion 1 "f" (NewStoreVersionSet "db" 3))).
  - vm_compute. reflexivity.
  - reflexivity.
  - vm_compute. reflexivity.
Defined.

Lemma CommitFamilyEditLog_frame_witness :
  familyIDs store2 = familyIDs store1
  ∧ files world2 !! "db/CURRENT" = files world1 !! "db/CURRENT".
Proof.
  destruct (CommitFamilyEditLog_frame store1 store2 world1 world2 "f" edit7
              committed7 Nil) as (Hids & _ & _ & _ & _ & Hfiles).
  - vm_compute. reflexivity.
  - split; [exact Hids|]. apply Hfiles. vm_compute. discriminate.
Defined.

Lemma reachable_registered_witness :
  registered store1
  ∧ is_Some (createSnapshot store1)
  ∧ (Recover store1 dangling).1.1 = Panic.
Proof.
  destruct (reachable_registered store1) as (Hreg & _ & Hsnap & Hpanic).
  - unfold store1, store0. apply reach_recover, reach_create, reach_new.
  - split; [exact Hreg|]. split; [exact Hsnap|].
    apply Hpanic. exists "MANIFEST-000009". split; vm_compute; reflexivity.
Defined.

Lemma Recover_with_writer_witness :
  (Recover store1 world1).2 = world1
  ∧ manifest (Recover store1 world1).1.2 = Some "db/MANIFEST-000001".
Proof.
  destruct (Recover_with_writer store1 world1 "db/MANIFEST-000001") as (Hw & Hm & _).
  - vm_compute. reflexivity.
  - split; [exact Hw|exact Hm].
Defined.

Lemma Recover_failure_keeps_prefix_witness :
  Recover store0 damaged
  = (Err ErrRecoverRead, setNextFileNumberWithoutLock 2 store0, damaged)
  ∧ manifest (setNextFileNumberWithoutLock 2 store0) = None.
Proof.
  destruct (Recover_failure_keeps_prefix store0
              (setNextFileNumberWithoutLock 2 store0) damaged ErrRecoverRead
              "MANIFEST-000001" [Frame storeRecord; Corrupt])
    as (Hr & Hm & _).
  - vm_compute. reflexivity.
  - vm_compute. reflexivity.
  - vm_compute. reflexivity.
  - split; [exact Hr|exact Hm].
Defined.

Lemma setCurrent_outcomes_witness :
  (setCurrent store0 "MANIFEST-000001" secondFails).1 = Err ErrRename
  ∧ files (setCurrent store0 "MANIFEST-000001" secondFails).2 !! "db/CURRENT.TMP"
    = Some (Text "MANIFEST-000001").
Proof.
  destruct (setCurrent_outcomes store0 "MANIFEST-000001" secondFails
              (setCurrent store0 "MANIFEST-000001" secondFails).2 (Err ErrRename))
    as [(Ho & _)|[(Ho & Htmp & _)|(Ho & _)]].
  - vm_compute. reflexivity.
  - discriminate Ho.
  - split; [vm_compute; reflexivity|exact Htmp].
  - discriminate Ho.
Defined.

Lemma createSnapshot_ids_witness :
  ∃ familyLogs,
    createSnapshot store0 = Some (familyLogs ++ [createStoreSnapshot store0])
    ∧ NoDup (familyID <$> familyLogs).
Proof.
  destruct (createSnapshot_ids store0
              [mkEditLog 1 []; mkEditLog StoreFamilyID [LogNextFileNumber 2]])
    as (familyLogs & Heq & Hnd & _).
  - vm_compute. reflexivity.
  - exists familyLogs. split; [|exact Hnd]. rewrite <- Heq.
    vm_compute. reflexivity.
Defined.

Lemma Recover_opens_live_manifest_witness : live store1 world1 ∧ live store3 world3.
Proof.
  split.
  - apply (Recover_opens_live_manifest store0 store1 world0 world1); [reflexivity|].
    vm_compute. reflexivity.
  - apply (Recover_opens_live_manifest store0 store3 world2 world3); [reflexivity|].
    vm_compute. reflexivity.
Defined.

Lemma CommitFamilyEditLog_extends_manifest_witness :
  manifestLogs store2 world2
  = Some [mkEditLog 1 [];
          mkEditLog StoreFamilyID [LogNextFileNumber 2];
          committed7].
Proof.
  destruct (CommitFamilyEditLog_extends_manifest store1 store2 world1 world2 "f"
              edit7 committed7
              [mkEditLog 1 []; mkEditLog StoreFamilyID [LogNextFileNumber 2]])
    as (_ & _ & Hlogs).
  - split; vm_compute; reflexivity.
  - vm_compute. reflexivity.
  - vm_compute. reflexivity.
  - intros record Hm. vm_compute in Hm. injection Hm as <-.
    vm_compute. reflexivity.
  - exact Hlogs.
Defined.

Lemma newVersionID_increasing_witness :
  (newVersionIDs 3 (NewStoreVersionSet "db" 7)).1 = [0; 1; 2]
  ∧ (NextFileNumber (newVersionIDs 3 (NewStoreVersionSet "db" 7)).2).1 = 2.
Proof.
  destruct (newVersionID_increasing (NewStoreVersionSet "db" 7) 3)
    as (Hids & _ & Hnext & _).
  - unfold in_int64, int64_min, int64_max. simpl. lia.
  - unfold int64_max. simpl. lia.
  - split; [exact Hids|]. rewrite Hnext. vm_compute. reflexivity.
Defined.

End RunFurther.
